(** * The tourist-destinations shortlist workflow

    A shallow embedding of [tourist-destinations-shortlist.py]: the three
    node functions, the router [route_by_step], the graph wiring built with
    [graph_builder], and the properties stated about them; then the report
    the last node prints and the chat loop of [tourist-destinations.py].

    Conventions of the embedding.
    - A Python [str] is a [string]; a character is the code point it
      carries, so the embedding covers the code points U+0000..U+00FF.  The
      character classes [isspace], [isdigit] and [isalpha] are Python's own
      tables on that range.
    - A Python [int] is a [Z].
    - A [dict] used as a map ([attractions]) is a [gmap].
    - The state of the graph and the dictionaries the nodes return are
      [TypedDict]s whose keys may be absent: one record of optional fields.
    - [llm.invoke] is an oracle that threads an abstract world: it may answer
      differently at every call, and it may raise.
    - [print] is not modelled: console output is no part of the state. *)

From Stdlib Require Import ZArith NArith Ascii Lia.
From stdpp Require Import gmap strings list fin_maps sorting pretty.

Open Scope Z_scope.

(** ** Python strings *)

Module PyStr.

(** Code point of a character. *)
Definition ord (c : ascii) : N := N_of_ascii c.

Definition between (lo hi : N) (c : ascii) : bool :=
  ((lo <=? ord c) && (ord c <=? hi))%N.

(** [str.isspace] on one character: TAB..CR, FS..US, SPACE, NEL, NBSP. *)
Definition isspace (c : ascii) : bool :=
  between 9 13 c || between 28 32 c || between 133 133 c || between 160 160 c.

(** [str.isdigit] on one character: the decimal digits and the
    superscripts two, three and one. *)
Definition isdigit (c : ascii) : bool :=
  between 48 57 c || between 178 179 c || between 185 185 c.

(** [str.isalpha] on one character: the ASCII letters, the ordinal
    indicators, the micro sign and the accented Latin-1 letters. *)
Definition isalpha (c : ascii) : bool :=
  between 65 90 c || between 97 122 c || between 170 170 c
  || between 181 181 c || between 186 186 c || between 192 214 c
  || between 216 246 c || between 248 255 c.

(** Truth value of a string: [bool(s)]. *)
Definition truthy (s : string) : bool :=
  match s with
  | EmptyString => false
  | String _ _ => true
  end.

(** [c in s] for a one-character needle. *)
Fixpoint contains (c : ascii) (s : string) : bool :=
  match s with
  | EmptyString => false
  | String a r => Ascii.eqb a c || contains c r
  end.

(** [any(p(char) for char in s)]. *)
Fixpoint any (p : ascii -> bool) (s : string) : bool :=
  match s with
  | EmptyString => false
  | String a r => p a || any p r
  end.

(** [s.lstrip(chars)]: drop the leading characters that occur in [chars]. *)
Fixpoint lstrip_chars (chars : string) (s : string) : string :=
  match s with
  | EmptyString => EmptyString
  | String a r => if contains a chars then lstrip_chars chars r else s
  end.

(** [s.lstrip()] and [s.rstrip()]: drop leading, trailing white space. *)
Fixpoint lstrip (s : string) : string :=
  match s with
  | EmptyString => EmptyString
  | String a r => if isspace a then lstrip r else s
  end.

Fixpoint rstrip (s : string) : string :=
  match s with
  | EmptyString => EmptyString
  | String a r =>
      match rstrip r with
      | EmptyString => if isspace a then EmptyString else String a EmptyString
      | String b r' => String a (String b r')
      end
  end.

(** [s.strip()]. *)
Definition strip (s : string) : string := lstrip (rstrip s).

(** [s.split(sep)] for a one-character separator: never the empty list,
    and one more field than there are separators. *)
Fixpoint split (sep : ascii) (s : string) : list string :=
  match s with
  | EmptyString => [EmptyString]
  | String a r =>
      if Ascii.eqb a sep then EmptyString :: split sep r
      else match split sep r with
           | field :: fields => String a field :: fields
           | [] => [String a EmptyString]
           end
  end.

(** [s.split(sep, 1)]: split at the first separator only. *)
Fixpoint split1 (sep : ascii) (s : string) : list string :=
  match s with
  | EmptyString => [EmptyString]
  | String a r =>
      if Ascii.eqb a sep then [EmptyString; r]
      else match split1 sep r with
           | field :: fields => String a field :: fields
           | [] => [String a EmptyString]
           end
  end.

(** The line feed, ['\n']. *)
Definition LF : ascii := "010"%char.

End PyStr.

Import PyStr.

(** ** Messages, exceptions and the model *)

Inductive Role := system | ai | human.

(** The [content] of a message is a [str], or a list of content blocks, on
    which [.strip()] does not exist. *)
Inductive Content :=
| ContentStr (s : string)
| ContentBlocks.

Record Message := { role : Role; content : Content }.

Definition SystemMessage (s : string) : Message :=
  {| role := system; content := ContentStr s |}.

(** The exceptions the workflow can meet, all subclasses of [Exception]:
    a failure of the model call, [.strip()] on a content that is no
    string, unpacking a list of the wrong length, a key that a dictionary
    does not have. *)
Inductive Exn := LLMError | AttributeError | ValueError | KeyError.

Inductive Result (A : Type) :=
| Ok (a : A)
| Raise (e : Exn).
Arguments Ok {A} a.
Arguments Raise {A} e.

Definition newline : string := String LF EmptyString.

Definition GET_DESTINATIONS_PROMPT : Message :=
  SystemMessage
    ("You are a travel expert. Generate 10 iconic tour destinations in the format 'country-city' based on the most popular travel destinations from 2017-2024. "
     +:+ newline +:+
     "For example: 'Sri Lanka-Weligama', 'Japan-Tokyo', 'Italy-Rome', 'France-Paris'. "
     +:+ newline +:+
     "Return ONLY a list of 10 country-city pairs, one per line, no additional text.").

(** [GET_ATTRACTIONS_PROMPT_TEMPLATE.content] has the one replacement field
    [{city}] and no other brace: it is the text before the field and the
    text after it. *)
Definition TEMPLATE_BEFORE_CITY : string := "You are a local guide. For the city ".

Definition TEMPLATE_AFTER_CITY : string :=
  ", list 5 of the most famous things to watch or visit." +:+ newline +:+
  "Return ONLY a numbered list of 5 attractions, one per line, no additional text."
  +:+ newline +:+ "Example format:"
  +:+ newline +:+ "1. Eiffel Tower"
  +:+ newline +:+ "2. Louvre Museum"
  +:+ newline +:+ "3. Notre-Dame Cathedral"
  +:+ newline +:+ "4. Champs-" +:+ String "201"%char "lys" +:+ String "233"%char "es"
  +:+ newline +:+ "5. Montmartre".

(** [GET_ATTRACTIONS_PROMPT_TEMPLATE.content.format(city=city)], set as the
    content of a copy of the template message. *)
Definition attractions_prompt (city : string) : Message :=
  SystemMessage (TEMPLATE_BEFORE_CITY +:+ city +:+ TEMPLATE_AFTER_CITY).

(** ** The state *)

(** [State], and the dictionaries the nodes return: every key may be
    absent. *)
Record State := {
  messages : option (list Message);
  destinations : option (list string);
  attractions : option (gmap string (list string));
  step : option Z
}.

Definition empty_dict : State :=
  {| messages := None; destinations := None; attractions := None; step := None |}.

(** [initial_state] of the script. *)
Definition initial_state : State :=
  {| messages := Some []; destinations := Some []; attractions := Some ∅;
     step := Some 1 |}.

(** ** Parsing helpers of the nodes *)

(** [[line.strip() for line in text.split('\n') if line.strip()]]. *)
Definition stripped_lines (text : string) : list string :=
  map strip (List.filter (fun line => truthy (strip line)) (split LF text)).

(** [destination.split('-', 1)] unpacked into [country, city] when
    ['-' in destination], the fallback otherwise. *)
Definition parse_destination (destination : string) : Result (string * string) :=
  if contains "-"%char destination then
    match split1 "-"%char destination with
    | [country; city] => Ok (country, city)
    | _ => Raise ValueError
    end
  else Ok ("Unknown", destination).

(** [[line.strip() for line in text.split('\n')
      if line.strip() and any(char.isdigit() or char.isalpha() for char in line)]]. *)
Definition attraction_lines (text : string) : list string :=
  map strip
    (List.filter
       (fun line => truthy (strip line) && any (fun char => isdigit char || isalpha char) line)
       (split LF text)).

(** [item.lstrip('0123456789. ')]. *)
Definition clean_item (item : string) : string := lstrip_chars "0123456789. " item.

(** The loop that fills [clean_attractions]: the cleaned items that are not
    empty, in order. *)
Fixpoint clean_loop (attraction_list : list string) : list string :=
  match attraction_list with
  | [] => []
  | item :: rest =>
      if truthy (clean_item item) then clean_item item :: clean_loop rest
      else clean_loop rest
  end.

(** What is stored for a destination whose response is the string
    [response_content]: [clean_attractions[:5]]. *)
Definition parse_attractions (response_content : string) : list string :=
  take 5 (clean_loop (attraction_lines (strip response_content))).

Definition ERROR_ENTRY : list string := ["Error retrieving attractions"].

(** ** The nodes *)

Section Nodes.

Context {World : Type}.
(** [llm.invoke]: given the world and the prompt list, the next world and
    either the response message or the exception raised. *)
Variable invoke : World -> list Message -> World * Result Message.

(** [response.content.strip()]. *)
Definition content_strip (response : Message) : Result string :=
  match content response with
  | ContentStr s => Ok (strip s)
  | ContentBlocks => Raise AttributeError
  end.

Definition get_destinations_node (w : World) (state : State) : World * Result State :=
  let '(w, r) := invoke w [GET_DESTINATIONS_PROMPT] in
  match r with
  | Raise e => (w, Raise e)
  | Ok response =>
      match content_strip response with
      | Raise e => (w, Raise e)
      | Ok destinations_text =>
          let destinations := take 10 (stripped_lines destinations_text) in
          (w, Ok {| destinations := Some destinations;
                    step := Some 2;
                    messages := Some [response];
                    attractions := None |})
      end
  end.

(** The body of the [try] for one destination: the value to store, or the
    exception that reaches the [except] clause. *)
Definition try_destination (w : World) (destination : string)
  : World * Result (list string) :=
  match parse_destination destination with
  | Raise e => (w, Raise e)
  | Ok (country, city) =>
      let '(w, r) := invoke w [attractions_prompt city] in
      match r with
      | Raise e => (w, Raise e)
      | Ok response =>
          match content response with
          | ContentStr s => (w, Ok (parse_attractions s))
          | ContentBlocks => (w, Raise AttributeError)
          end
      end
  end.

(** One turn of the [for] loop: the [try] and its [except Exception]. *)
Definition attractions_step (w : World) (attractions : gmap string (list string))
    (destination : string) : World * gmap string (list string) :=
  let '(w, r) := try_destination w destination in
  match r with
  | Ok clean_attractions => (w, <[destination := clean_attractions]> attractions)
  | Raise _ => (w, <[destination := ERROR_ENTRY]> attractions)
  end.

Fixpoint attractions_loop (w : World) (attractions : gmap string (list string))
    (todo : list string) : World * gmap string (list string) :=
  match todo with
  | [] => (w, attractions)
  | destination :: rest =>
      let '(w, attractions) := attractions_step w attractions destination in
      attractions_loop w attractions rest
  end.

Definition get_attractions_node (w : World) (state : State) : World * Result State :=
  match destinations state with
  | None => (w, Raise KeyError)
  | Some ds =>
      let '(w, attractions) := attractions_loop w ∅ ds in
      (w, Ok {| attractions := Some attractions;
                step := Some 3;
                messages := Some [];
                destinations := None |})
  end.

(** [display_results_node] reads [state["destinations"]] and
    [state["attractions"]], prints, and returns [{"step": 0}]. *)
Definition display_results_node (w : World) (state : State) : World * Result State :=
  match destinations state, attractions state with
  | Some _, Some _ =>
      (w, Ok {| step := Some 0; messages := None; destinations := None;
                attractions := None |})
  | _, _ => (w, Raise KeyError)
  end.

End Nodes.

(** ** The router and the graph *)

Inductive Node := get_destinations | get_attractions | display_results.

(** What a router returns and an edge leads to: the name of a node, or
    [END]. *)
Inductive Target :=
| To (n : Node)
| END.

#[global] Instance Node_eq_dec : EqDecision Node.
Proof. solve_decision. Defined.

#[global] Instance Target_eq_dec : EqDecision Target.
Proof. solve_decision. Defined.

Definition route_by_step (state : State) : Target :=
  let s := default 1 (step state) in
  if s =? 1 then To get_destinations
  else if s =? 2 then To get_attractions
  else if s =? 3 then To display_results
  else END.

(** The edge out of a node: [add_conditional_edges] with the router and a
    path map, or [add_edge]. *)
Inductive Edge :=
| Conditional (router : State -> Target) (path_map : list (Target * Target))
| Direct (target : Target).

Definition entry_point : Node := get_destinations.

Definition edge_from (n : Node) : Edge :=
  match n with
  | get_destinations =>
      Conditional route_by_step
        [(To get_attractions, To get_attractions);
         (To display_results, To display_results);
         (END, END)]
  | get_attractions =>
      Conditional route_by_step
        [(To display_results, To display_results);
         (END, END)]
  | display_results => Direct END
  end.

Fixpoint path_lookup (key : Target) (path_map : list (Target * Target)) : option Target :=
  match path_map with
  | [] => None
  | (k, v) :: rest => if decide (k = key) then Some v else path_lookup key rest
  end.

(** Following the edge out of [n] in state [state]; a router value that the
    path map does not list is a [KeyError]. *)
Definition next_target (n : Node) (state : State) : Result Target :=
  match edge_from n with
  | Direct target => Ok target
  | Conditional router path_map =>
      match path_lookup (router state) path_map with
      | Some target => Ok target
      | None => Raise KeyError
      end
  end.

(** ** Merge and the engine *)

(** Modelled from the spec: the reducer of the [messages] field,
    [add_messages], is a function of the graph library and not in the
    sources; the spec has it concatenate. *)
Definition add_messages (left right : list Message) : list Message := left ++ right.

(** Modelled from the spec: the merge of a node's dictionary into the state
    is done by the graph library, which is not in the sources.  [State]
    declares the policy of each field: [messages] is annotated with
    [add_messages], the other fields have no reducer and are overwritten.  A
    key absent from [partial] leaves the field as it is. *)
Definition merge (current partial : State) : State :=
  {| messages :=
       match messages partial with
       | Some new => Some (add_messages (default [] (messages current)) new)
       | None => messages current
       end;
     destinations :=
       match destinations partial with
       | Some new => Some new
       | None => destinations current
       end;
     attractions :=
       match attractions partial with
       | Some new => Some new
       | None => attractions current
       end;
     step :=
       match step partial with
       | Some new => Some new
       | None => step current
       end |}.

Section Engine.

Context {World : Type}.
Variable invoke : World -> list Message -> World * Result Message.

Definition node_function (n : Node) : World -> State -> World * Result State :=
  match n with
  | get_destinations => get_destinations_node invoke
  | get_attractions => get_attractions_node invoke
  | display_results => display_results_node
  end.

(** How a run ends, and the nodes it executed, in order. *)
Record Run := {
  run_world : World;
  run_result : Result State;
  run_trace : list Node
}.

(** Modelled from the spec: the driver loop of the engine is the graph
    library's and not in the sources.  It executes the current node, merges
    the dictionary the node returns into the state, follows the edge out of
    the node, and stops at [END]; an exception of a node or of the routing
    ends the run.  [fuel] bounds the number of node executions; [None] is a
    run that needs more. *)
Fixpoint run (fuel : nat) (w : World) (state : State) (n : Node) : option Run :=
  match fuel with
  | O => None
  | S fuel =>
      let '(w, r) := node_function n w state in
      match r with
      | Raise e => Some {| run_world := w; run_result := Raise e; run_trace := [n] |}
      | Ok partial =>
          let state := merge state partial in
          match next_target n state with
          | Raise e => Some {| run_world := w; run_result := Raise e; run_trace := [n] |}
          | Ok END => Some {| run_world := w; run_result := Ok state; run_trace := [n] |}
          | Ok (To n') =>
              match run fuel w state n' with
              | Some rest =>
                  Some {| run_world := run_world rest;
                          run_result := run_result rest;
                          run_trace := n :: run_trace rest |}
              | None => None
              end
          end
      end
  end.

(** [app.stream(input)]: the input is merged into the empty state and the
    run starts at the entry point. *)
Definition app_stream (fuel : nat) (w : World) (input : State) : option Run :=
  run fuel w (merge empty_dict input) entry_point.

End Engine.

Arguments Run : clear implicits.

(** ** The claims' own notions *)

(** A blank line: nothing but white space. *)
Definition is_blank (line : string) : bool :=
  negb (any (fun c => negb (isspace c)) line).

(** The non-blank lines of a text, in order. *)
Definition nonblank_lines (text : string) : list string :=
  List.filter (fun line => negb (is_blank line)) (split LF text).

(** A line that holds a digit or a letter. *)
Definition has_alnum (line : string) : bool :=
  any (fun c => isdigit c || isalpha c) line.

(** Cleaning one line of a response: the surrounding white space, then the
    leading enumeration marker. *)
Definition clean_line (line : string) : string := clean_item (strip line).

(** The attraction list as the words of the parsing rule give it: every
    non-blank line, cleaned, and the first five of them. *)
Definition claimed_attractions (text : string) : list string :=
  take 5 (map clean_line (nonblank_lines text)).

(** The attraction list the node stores: of the non-blank lines that hold a
    digit or a letter, cleaned, those that are not empty, and the first five
    of them. *)
Definition kept_attractions (text : string) : list string :=
  take 5
    (List.filter truthy
       (map clean_line
          (List.filter (fun line => negb (is_blank line) && has_alnum line)
             (split LF text)))).

(** ** A scripted model *)

(** A model that answers from a script, one entry per call, and raises once
    the script is used up. *)
Definition Script := list (Result Message).

Definition scripted (w : Script) (prompts : list Message) : Script * Result Message :=
  match w with
  | [] => ([], Raise LLMError)
  | r :: w => (w, r)
  end.

Definition AIMessage (s : string) : Message :=
  {| role := ai; content := ContentStr s |}.

(** What the loop over the destinations asked the model and what it was
    answered. *)
Section Answers.

Context {World : Type}.
Variable invoke : World -> list Message -> World * Result Message.

(** The world after the loop over [todo]. *)
Definition world_after (w : World) (todo : list string) : World :=
  fst (attractions_loop invoke w ∅ todo).

(** The locale the prompt for a destination names. *)
Definition locale (destination : string) : string :=
  match parse_destination destination with
  | Ok (country, city) => city
  | Raise _ => destination
  end.

(** The answer of the model to the call made for the [i]-th destination of
    [todo], in a loop that starts in world [w]. *)
Definition answer (w : World) (todo : list string) (i : nat) : option (Result Message) :=
  match todo !! i with
  | Some destination =>
      Some (snd (invoke (world_after w (take i todo))
                        [attractions_prompt (locale destination)]))
  | None => None
  end.

End Answers.

(** The value the loop stores for an outcome of the [try]. *)
Definition entry_of (r : Result (list string)) : list string :=
  match r with
  | Ok clean_attractions => clean_attractions
  | Raise _ => ERROR_ENTRY
  end.

(** The stripped lines of [lines] that are not empty and satisfy [p]. *)
Definition keep (p : string -> bool) (lines : list string) : list string :=
  map strip (List.filter (fun line => truthy (strip line) && p line) lines).

(** Fixtures: three destinations, a model that raises at the second call
    only, and a response with a rule line, a bare number and a dashed
    line. *)
Definition three_items : list string := ["Japan-Tokyo"; "France-Paris"; "Italy-Rome"].

Definition second_call_raises : Script :=
  [Ok (AIMessage ("1. Senso-ji" +:+ newline +:+ "2. Tokyo Tower"));
   Raise LLMError;
   Ok (AIMessage ("1. Colosseum" +:+ newline +:+ "2. Pantheon"))].

Definition state_with (items : list string) : State :=
  {| messages := Some []; destinations := Some items; attractions := Some ∅;
     step := Some 2 |}.

Definition ruled_response : string :=
  "---" +:+ newline +:+ "1." +:+ newline +:+ "- Louvre".

(** A model that names two destinations, answers for the first and raises
    for the second. *)
Definition two_destinations : Script :=
  [Ok (AIMessage ("Japan-Tokyo" +:+ newline +:+ "France-Paris"));
   Ok (AIMessage ("1. Senso-ji" +:+ newline +:+ "2. Tokyo Tower"));
   Raise LLMError].

(** A response of fifteen lines, with blank lines around them. *)
Definition fifteen_lines : string :=
  newline +:+ "  Japan-Tokyo" +:+ newline +:+ "Italy-Rome " +:+ newline
  +:+ "France-Paris" +:+ newline +:+ "   " +:+ newline
  +:+ "Spain-Barcelona" +:+ newline +:+ "Thailand-Bangkok" +:+ newline
  +:+ "Greece-Athens" +:+ newline +:+ "Peru-Cusco" +:+ newline
  +:+ "Egypt-Cairo" +:+ newline +:+ "Turkey-Istanbul" +:+ newline
  +:+ "India-Agra" +:+ newline +:+ "Kenya-Nairobi" +:+ newline
  +:+ "Iceland-Reykjavik" +:+ newline +:+ "Chile-Santiago" +:+ newline
  +:+ "Nepal-Kathmandu" +:+ newline +:+ "Cuba-Havana" +:+ newline.

(** A state that holds a control value and nothing else. *)
Definition state_at (control : Z) : State :=
  {| messages := None; destinations := None; attractions := None;
     step := Some control |}.

(** ** Instruments for the further properties *)

(** A model that also records every prompt list it is called with, in
    order. *)
Definition logged {World : Type}
    (invoke : World -> list Message -> World * Result Message)
    (wl : World * list (list Message)) (prompts : list Message)
  : (World * list (list Message)) * Result Message :=
  let '(w, r) := invoke (fst wl) prompts in
  ((w, snd wl ++ [prompts]), r).

(** The nodes in the order [graph_builder] adds them. *)
Definition node_index (n : Node) : nat :=
  match n with
  | get_destinations => 0
  | get_attractions => 1
  | display_results => 2
  end.

(** The characters [clean_item] strips from the left. *)
Definition MARKER_CHARS : string := "0123456789. ".

(** A stored line is one line, ends in no white space and starts with no
    digit, dot or space. *)
Definition clean_entry_line (line : string) : Prop :=
  contains LF line = false
  /\ rstrip line = line
  /\ (forall c rest, line = String c rest -> contains c MARKER_CHARS = false).

Definition clean_entry (entry : list string) : Prop :=
  (length entry <= 5)%nat /\ Forall clean_entry_line entry.

(** The prompt lists the loop over [todo] sends, in order. *)
Definition prompts_for (todo : list string) : list (list Message) :=
  map (fun destination => [attractions_prompt (locale destination)]) todo.

(** ** The report *)

(** [str(i)] of a natural number: its decimal digits. *)
Definition str_of_nat (i : nat) : string := pretty i.

(** [s.count(c)] for a one-character needle. *)
Fixpoint count (c : ascii) (s : string) : nat :=
  match s with
  | EmptyString => 0
  | String a r => if Ascii.eqb a c then S (count c r) else count c r
  end.

(** The lines of [for j, x in enumerate(xs, 1): print(f"{indent}{j}. {x}")]. *)
Definition numbered (indent : string) (xs : list string) : list string :=
  imap (fun j x => indent +:+ str_of_nat (S j) +:+ ". " +:+ x) xs.

(** The heading of a destination in the report: [destination.split('-')]
    names the city and the country when it has two parts, and the
    destination is printed whole otherwise. *)
Definition report_header (destination : string) : string :=
  match split "-"%char destination with
  | [country; city] => newline +:+ "  " +:+ city +:+ ", " +:+ country +:+ ":"
  | _ => newline +:+ "  " +:+ destination +:+ ":"
  end.

Definition report_section (item : string * list string) : list string :=
  report_header (fst item) :: numbered "    " (snd item).

(** What [display_results_node] prints, one string per [print], for the
    destinations of the state and the items of its attractions in the order
    [dict.items()] gives them. *)
Definition display_output (destinations : list string)
    (items : list (string * list string)) : list string :=
  ["TOURIST INFORMATION AGENT - FINAL RESULTS";
   "-----------------------------------------";
   newline +:+ "ICONIC TOUR DESTINATIONS (Country-City):"]
  ++ numbered "  " destinations
  ++ [newline +:+ "FAMOUS ATTRACTIONS FOR EACH CITY:"]
  ++ flat_map report_section items
  ++ [newline +:+ "-------------------------------------------------";
      "Process completed successfully!";
      "------------------------------------------------"].

(** ** The dictionary with its order *)

(** A [dict] keeps its keys in the order of their first insertion:
    [d[k] = v] replaces the value of a key that is present, where it stands,
    and appends a key that is new. *)
Fixpoint dict_set (k : string) (v : list string) (d : list (string * list string))
  : list (string * list string) :=
  match d with
  | [] => [(k, v)]
  | (k', v') :: rest =>
      if decide (k' = k) then (k', v) :: rest else (k', v') :: dict_set k v rest
  end.

(** The distinct elements of a list, each where it first occurs. *)
Fixpoint first_occurrences (l : list string) : list string :=
  match l with
  | [] => []
  | x :: rest => x :: filter (fun y => y <> x) (first_occurrences rest)
  end.

Section Items.

Context {World : Type}.
Variable invoke : World -> list Message -> World * Result Message.

(** The loop of [get_attractions_node] on the dictionary with its order. *)
Fixpoint items_loop (w : World) (attractions : list (string * list string))
    (todo : list string) : World * list (string * list string) :=
  match todo with
  | [] => (w, attractions)
  | destination :: rest =>
      let '(w, r) := try_destination invoke w destination in
      items_loop w (dict_set destination (entry_of r) attractions) rest
  end.

(** What the report node prints at the end of a run whose destinations
    step stored [items]: the attractions are those the loop built from the
    empty dictionary. *)
Definition report_of (w : World) (items : list string) : list string :=
  display_output items (snd (items_loop w [] items)).

End Items.

(** ** The chat script, [tourist-destinations.py] *)

(** [str.lower] on one character: the ASCII capitals and the accented
    Latin-1 capitals move 32 code points up, every other character of the
    range stays. *)
Definition lower_char (c : ascii) : ascii :=
  if between 65 90 c || between 192 214 c || between 216 222 c
  then ascii_of_N (ord c + 32)
  else c.

Fixpoint lower (s : string) : string :=
  match s with
  | EmptyString => EmptyString
  | String a r => String (lower_char a) (lower r)
  end.

(** The message the graph library makes of the pair [("human", text)]. *)
Definition HumanMessage (s : string) : Message :=
  {| role := human; content := ContentStr s |}.

(** What ends the chat besides the word [exit]: an exception of the node,
    a list without last element, the end of the input. *)
Inductive ChatExn := NodeRaised (e : Exn) | IndexError | EOFError.

Inductive ChatEnd := Exited | Stopped (e : ChatExn).

Section Chat.

Context {World : Type}.
Variable invoke : World -> list Message -> World * Result Message.

(** [chatbot]: the messages of the state go to the model, and the answer is
    returned as the one new message.  The state of this script has the key
    [messages] only; the other fields of the record stay absent. *)
Definition chatbot (w : World) (state : State) : World * Result State :=
  match messages state with
  | None => (w, Raise KeyError)
  | Some history =>
      let '(w, r) := invoke w history in
      match r with
      | Raise e => (w, Raise e)
      | Ok result =>
          (w, Ok {| messages := Some [result]; destinations := None;
                    attractions := None; step := None |})
      end
  end.

(** [app.stream(inputs)] of the chat graph, whose one node [llm_node] has
    the edge to [END]: the inputs are merged into the empty state, the node
    runs, and the stream yields the dictionary the node returned. *)
Definition chat_stream (w : World) (inputs : State) : World * Result State :=
  chatbot w (merge empty_dict inputs).

(** [value['messages'][-1].content] of a yielded dictionary. *)
Definition last_content (value : State) : ChatExn + Content :=
  match messages value with
  | None => inl (NodeRaised KeyError)
  | Some ms =>
      match last ms with
      | None => inl IndexError
      | Some message => inr (content message)
      end
  end.

(** The [while True] loop over the lines [input] returns, with the
    contents printed after ["Bot: "] so far. *)
Fixpoint chat_loop (w : World) (inputs : list string) (printed : list Content)
  : World * list Content * ChatEnd :=
  match inputs with
  | [] => (w, printed, Stopped EOFError)
  | user_input :: rest =>
      if String.eqb (lower user_input) "exit" then (w, printed, Exited)
      else
        let inputs :=
          {| messages := Some [HumanMessage user_input]; destinations := None;
             attractions := None; step := None |} in
        let '(w, r) := chat_stream w inputs in
        match r with
        | Raise e => (w, printed, Stopped (NodeRaised e))
        | Ok value =>
            match last_content value with
            | inl e => (w, printed, Stopped e)
            | inr c => chat_loop w rest (printed ++ [c])
            end
        end
  end.

End Chat.

(** The prompt lists of the turns of a chat: each holds the line of its
    turn and nothing else. *)
Definition chat_prompts (turns : list string) : list (list Message) :=
  map (fun user_input => [HumanMessage user_input]) turns.

(** * Properties *)

(** ** Strings *)

Module PyStrFacts.

Lemma isspace_LF : isspace LF = true.
Proof. reflexivity. Qed.

(** No white-space character is a digit or a letter. *)
Lemma isspace_not_alnum c : isspace c = true -> isdigit c || isalpha c = false.
Proof. destruct c as [[] [] [] [] [] [] [] []]; vm_compute; congruence. Qed.

Lemma eqb_LF_isspace a : Ascii.eqb a LF = true -> isspace a = true.
Proof. intros H. apply Ascii.eqb_eq in H. subst a. reflexivity. Qed.

Lemma split_cons sep s : exists field fields, split sep s = field :: fields.
Proof.
  induction s as [|a r [h [t IH]]]; simpl; [by eauto|].
  destruct (Ascii.eqb a sep); [by eauto|]. rewrite IH. by eauto.
Qed.

Lemma rstrip_String a r :
  rstrip (String a r) =
    if truthy (rstrip r) then String a (rstrip r)
    else if isspace a then EmptyString else String a EmptyString.
Proof. simpl. by destruct (rstrip r). Qed.

Lemma truthy_false s : truthy s = false -> s = EmptyString.
Proof. by destruct s. Qed.

(** A leading white-space character does not survive [strip]. *)
Lemma strip_String_space a s : isspace a = true -> strip (String a s) = strip s.
Proof.
  intros Ha. unfold strip. rewrite rstrip_String.
  destruct (truthy (rstrip s)) eqn:E.
  - simpl. by rewrite Ha.
  - rewrite Ha. by rewrite (truthy_false _ E).
Qed.

Lemma strip_rstrip_eq s s' : rstrip s' = rstrip s -> strip s' = strip s.
Proof. unfold strip. by intros ->. Qed.

(** [strip] leaves something exactly when a character is no white space. *)
Lemma any_rstrip (p : ascii -> bool) s :
  (forall c, isspace c = true -> p c = false) ->
  any p (rstrip s) = any p s.
Proof.
  intros Hp. induction s as [|a r IH]; [done|].
  rewrite rstrip_String. destruct (truthy (rstrip r)) eqn:E.
  - simpl. by rewrite IH.
  - rewrite (truthy_false _ E) in IH. simpl in IH. simpl. rewrite <- IH.
    destruct (isspace a) eqn:Ha; simpl.
    + by rewrite (Hp a Ha).
    + done.
Qed.

Lemma truthy_lstrip s : truthy (lstrip s) = any (fun c => negb (isspace c)) s.
Proof.
  induction s as [|a r IH]; [done|]. simpl.
  destruct (isspace a); simpl; done.
Qed.

Lemma truthy_strip line : truthy (strip line) = negb (is_blank line).
Proof.
  unfold strip, is_blank. rewrite truthy_lstrip, negb_involutive.
  apply any_rstrip. by intros c ->.
Qed.

Lemma has_alnum_rstrip line : has_alnum (rstrip line) = has_alnum line.
Proof. apply any_rstrip, isspace_not_alnum. Qed.

Lemma has_alnum_String_space a line :
  isspace a = true -> has_alnum (String a line) = has_alnum line.
Proof. intros Ha. unfold has_alnum. simpl. by rewrite (isspace_not_alnum a Ha). Qed.

(** *** Stripping a text does not change its stripped, kept lines *)

Section Keep.

(** A further condition on the line, blind to surrounding white space. *)
Variable p : string -> bool.
Hypothesis p_space : forall a line, isspace a = true -> p (String a line) = p line.
Hypothesis p_rstrip : forall line, p (rstrip line) = p line.

Local Abbreviation keep := (keep p).

Lemma keep_cons line lines :
  keep (line :: lines) =
    if truthy (strip line) && p line then strip line :: keep lines else keep lines.
Proof. unfold keep. simpl. by destruct (truthy (strip line) && p line). Qed.

Lemma keep_cons_eq h h' t t' :
  rstrip h' = rstrip h -> keep t' = keep t -> keep (h' :: t') = keep (h :: t).
Proof.
  intros Hh Ht. rewrite !keep_cons, Ht, (strip_rstrip_eq _ _ Hh).
  by rewrite <- (p_rstrip h'), Hh, p_rstrip.
Qed.

Lemma keep_empty_line t : keep (EmptyString :: t) = keep t.
Proof. by rewrite keep_cons. Qed.

Lemma keep_lstrip s : keep (split LF (lstrip s)) = keep (split LF s).
Proof.
  induction s as [|a r IH]; [done|]. simpl lstrip.
  destruct (isspace a) eqn:Ha; [|done].
  rewrite IH. simpl split. destruct (Ascii.eqb a LF).
  - by rewrite keep_empty_line.
  - destruct (split_cons LF r) as [h [t ->]].
    rewrite !keep_cons, (strip_String_space a h Ha), (p_space a h Ha). done.
Qed.

Lemma keep_rstrip_strong s :
  exists h t h' t',
    split LF s = h :: t /\ split LF (rstrip s) = h' :: t'
    /\ rstrip h' = rstrip h /\ keep t' = keep t.
Proof.
  induction s as [|a r (h & t & h' & t' & Hs & Hs' & Hh & Ht)].
  { exists EmptyString, [], EmptyString, []. done. }
  rewrite rstrip_String. simpl split. rewrite Hs.
  destruct (truthy (rstrip r)) eqn:E.
  - (* something is left of [r] *)
    simpl split. rewrite Hs'. destruct (Ascii.eqb a LF) eqn:Ea.
    + exists EmptyString, (h :: t), EmptyString, (h' :: t').
      split_and!; [done..|]. by apply keep_cons_eq.
    + exists (String a h), t, (String a h'), t'.
      split_and!; [done..| |done]. by rewrite !rstrip_String, Hh.
  - (* [r] is white space only *)
    rewrite (truthy_false _ E) in Hs'. simpl in Hs'.
    injection Hs' as <- <-. simpl in Hh.
    destruct (Ascii.eqb a LF) eqn:Ea.
    + rewrite (eqb_LF_isspace a Ea).
      exists EmptyString, (h :: t), EmptyString, [].
      split_and!; [done..|].
      rewrite keep_cons, <- Ht. unfold strip. by rewrite <- Hh.
    + destruct (isspace a) eqn:Ha.
      * exists (String a h), t, EmptyString, [].
        split_and!; [done..| |done].
        by rewrite rstrip_String, <- Hh, Ha.
      * exists (String a h), t, (String a EmptyString), [].
        split_and!; [done| by simpl; rewrite Ea | |done].
        by rewrite !rstrip_String, <- Hh.
Qed.

Lemma keep_rstrip s : keep (split LF (rstrip s)) = keep (split LF s).
Proof.
  destruct (keep_rstrip_strong s) as (h & t & h' & t' & -> & -> & Hh & Ht).
  by apply keep_cons_eq.
Qed.

Lemma keep_strip s : keep (split LF (strip s)) = keep (split LF s).
Proof. unfold strip. by rewrite keep_lstrip, keep_rstrip. Qed.

End Keep.

End PyStrFacts.

Import PyStrFacts.

(** ** The destinations step *)

Lemma stripped_lines_strip text :
  stripped_lines (strip text) = map strip (nonblank_lines text).
Proof.
  transitivity (keep (fun _ => true) (split LF (strip text))).
  { unfold stripped_lines, keep. f_equal. apply List.filter_ext.
    intros line. by rewrite andb_true_r. }
  rewrite keep_strip by done.
  unfold keep, nonblank_lines. f_equal. apply List.filter_ext.
  intros line. by rewrite andb_true_r, truthy_strip.
Qed.

(** C4: whatever string the model answers, the destinations step stores
    the first ten non-blank lines of the response, each stripped, in order;
    their number is the smaller of ten and the number of non-blank lines, and
    fewer than ten lines are no error. *)
Theorem destinations_truncation {World : Type}
    (invoke : World -> list Message -> World * Result Message)
    (w w' : World) (state : State) (response : Message) (s : string) :
  invoke w [GET_DESTINATIONS_PROMPT] = (w', Ok response) ->
  content response = ContentStr s ->
  exists items,
    get_destinations_node invoke w state
      = (w', Ok {| destinations := Some items; step := Some 2;
                   messages := Some [response]; attractions := None |})
    /\ items = take 10 (map strip (nonblank_lines s))
    /\ length items = Nat.min 10 (length (nonblank_lines s)).
Proof.
  intros Hcall Hcontent.
  exists (take 10 (map strip (nonblank_lines s))). split_and!.
  - unfold get_destinations_node, content_strip.
    by rewrite Hcall, Hcontent, stripped_lines_strip.
  - done.
  - by rewrite length_take, length_map.
Qed.

(** Fifteen lines give ten items, three lines give three. *)
Lemma destinations_truncation_witness :
  (exists items,
      get_destinations_node scripted [Ok (AIMessage fifteen_lines)] initial_state
        = ([], Ok {| destinations := Some items; step := Some 2;
                     messages := Some [AIMessage fifteen_lines];
                     attractions := None |})
      /\ length items = 10%nat
      /\ items !! 0%nat = Some "Japan-Tokyo" /\ items !! 9%nat = Some "India-Agra")
  /\ (exists items,
        get_destinations_node scripted
            [Ok (AIMessage ("Japan-Tokyo" +:+ newline +:+ "Italy-Rome" +:+ newline
                            +:+ "France-Paris"))] initial_state
          = ([], Ok {| destinations := Some items; step := Some 2;
                       messages :=
                         Some [AIMessage ("Japan-Tokyo" +:+ newline +:+ "Italy-Rome"
                                          +:+ newline +:+ "France-Paris")];
                       attractions := None |})
        /\ length items = 3%nat).
Proof.
  split.
  - destruct (destinations_truncation scripted [Ok (AIMessage fifteen_lines)] []
                initial_state (AIMessage fifteen_lines) fifteen_lines
                eq_refl eq_refl) as (items & Hnode & Hitems & Hlength).
    exists items. split_and!; [exact Hnode | exact Hlength | by rewrite Hitems..].
  - destruct (destinations_truncation scripted
                [Ok (AIMessage ("Japan-Tokyo" +:+ newline +:+ "Italy-Rome" +:+ newline
                                +:+ "France-Paris"))] []
                initial_state _ _ eq_refl eq_refl) as (items & Hnode & _ & Hlength).
    exists items. split; [exact Hnode | exact Hlength].
Defined.

(** ** Splitting a destination *)

Lemma split1_contains sep s :
  contains sep s = true ->
  exists before after,
    split1 sep s = [before; after]
    /\ s = before +:+ String sep after
    /\ contains sep before = false.
Proof.
  induction s as [|a r IH]; [done|]. simpl.
  destruct (Ascii.eqb a sep) eqn:Ea.
  - intros _. apply Ascii.eqb_eq in Ea as ->. by exists EmptyString, r.
  - simpl. intros (before & after & -> & -> & Hb)%IH.
    exists (String a before), after. split_and!; [done..|].
    simpl. by rewrite Ea, Hb.
Qed.

Lemma parse_destination_separator destination :
  contains "-" destination = true ->
  exists country city,
    parse_destination destination = Ok (country, city)
    /\ destination = country +:+ "-" +:+ city
    /\ contains "-" country = false.
Proof.
  intros H. unfold parse_destination. rewrite H.
  destruct (split1_contains _ _ H) as (country & city & -> & Hd & Hc).
  by exists country, city.
Qed.

Lemma parse_destination_fallback destination :
  contains "-" destination = false ->
  parse_destination destination = Ok ("Unknown", destination).
Proof. unfold parse_destination. by intros ->. Qed.

(** C5: an item that holds the separator ['-'] is split at its first
    occurrence, the region before it and the locale after it; an item
    without separator is its own locale, in the region ["Unknown"]. *)
Theorem parse_destination_split (destination : string) :
  (contains "-" destination = true ->
   exists country city,
     parse_destination destination = Ok (country, city)
     /\ destination = country +:+ "-" +:+ city
     /\ contains "-" country = false)
  /\ (contains "-" destination = false ->
      parse_destination destination = Ok ("Unknown", destination))
  /\ parse_destination "Japan-Tokyo" = Ok ("Japan", "Tokyo")
  /\ parse_destination "Tokyo" = Ok ("Unknown", "Tokyo").
Proof.
  split_and!.
  - apply parse_destination_separator.
  - apply parse_destination_fallback.
  - reflexivity.
  - reflexivity.
Qed.

Lemma parse_destination_split_witness :
  (exists country city,
     parse_destination "Sri Lanka-Weligama" = Ok (country, city)
     /\ "Sri Lanka-Weligama" = country +:+ "-" +:+ city
     /\ contains "-" country = false)
  /\ parse_destination "Weligama" = Ok ("Unknown", "Weligama").
Proof.
  split.
  - apply (proj1 (parse_destination_split "Sri Lanka-Weligama")). reflexivity.
  - apply (proj1 (proj2 (parse_destination_split "Weligama"))). reflexivity.
Defined.

(** ** Cleaning a line *)

(** C7: cleaning ["2. Eiffel Tower"] gives ["Eiffel Tower"], and a line
    such as ["- no marker"], whose first character is no digit, dot or space,
    is left as it is. *)
Theorem clean_item_examples :
  clean_item "2. Eiffel Tower" = "Eiffel Tower"
  /\ clean_item "- no marker" = "- no marker"
  /\ parse_attractions ("2. Eiffel Tower" +:+ newline +:+ "- no marker")
     = ["Eiffel Tower"; "- no marker"]
  /\ forall c rest,
       contains c "0123456789. " = false ->
       clean_item (String c rest) = String c rest.
Proof.
  split_and!; [done..|]. intros c rest H.
  change (clean_item (String c rest))
    with (if contains c "0123456789. "
          then lstrip_chars "0123456789. " rest else String c rest).
  by rewrite H.
Qed.

Lemma clean_item_examples_witness :
  clean_item (String "-" " no marker") = String "-" " no marker".
Proof.
  apply (proj2 (proj2 (proj2 clean_item_examples))). reflexivity.
Defined.

(** ** The attractions step *)

Lemma parse_destination_Ok destination :
  exists country, parse_destination destination = Ok (country, locale destination).
Proof.
  unfold locale.
  destruct (contains "-" destination) eqn:E.
  - destruct (parse_destination_separator destination E) as (c & l & -> & _).
    by exists c.
  - rewrite (parse_destination_fallback destination E). by eexists.
Qed.

Lemma clean_loop_filter lines :
  clean_loop lines = List.filter truthy (map clean_item lines).
Proof.
  induction lines as [|item rest IH]; [done|]. simpl.
  destruct (truthy (clean_item item)); by rewrite IH.
Qed.

Lemma attraction_lines_strip text :
  attraction_lines (strip text)
  = map strip
      (List.filter (fun line => negb (is_blank line) && has_alnum line) (split LF text)).
Proof.
  change (attraction_lines (strip text)) with (keep has_alnum (split LF (strip text))).
  rewrite (keep_strip has_alnum has_alnum_String_space has_alnum_rstrip).
  unfold keep. f_equal. apply List.filter_ext.
  intros line. by rewrite truthy_strip.
Qed.

(** What the node stores for a response is what [kept_attractions] says of
    the response as the model gave it. *)
Lemma parse_attractions_kept text : parse_attractions text = kept_attractions text.
Proof.
  unfold parse_attractions, kept_attractions.
  rewrite attraction_lines_strip, clean_loop_filter, List.map_map. done.
Qed.

Lemma parse_attractions_truthy text line :
  line ∈ parse_attractions text -> truthy line = true.
Proof.
  unfold parse_attractions. rewrite clean_loop_filter.
  intros H%(subseteq_take 5)%list_elem_of_In%List.filter_In. tauto.
Qed.

Section Loop.

Context {World : Type}.
Variable invoke : World -> list Message -> World * Result Message.

(** The [try] for a destination, read off the answer of the model. *)
Lemma try_destination_answer w destination :
  try_destination invoke w destination =
    let '(w', r) := invoke w [attractions_prompt (locale destination)] in
    (w', match r with
         | Raise e => Raise e
         | Ok response =>
             match content response with
             | ContentStr s => Ok (parse_attractions s)
             | ContentBlocks => Raise AttributeError
             end
         end).
Proof.
  unfold try_destination.
  destruct (parse_destination_Ok destination) as [country ->].
  destruct (invoke w _) as [w' [response|e]]; [|done].
  by destruct (content response).
Qed.

Lemma attractions_step_eq w m destination :
  attractions_step invoke w m destination =
    (fst (try_destination invoke w destination),
     <[destination := entry_of (snd (try_destination invoke w destination))]> m).
Proof.
  unfold attractions_step.
  by destruct (try_destination invoke w destination) as [w' [v|e]].
Qed.

Lemma attractions_loop_cons w m destination rest :
  attractions_loop invoke w m (destination :: rest) =
    attractions_loop invoke (fst (try_destination invoke w destination))
      (<[destination := entry_of (snd (try_destination invoke w destination))]> m) rest.
Proof. simpl. by rewrite attractions_step_eq. Qed.

(** The worlds the loop goes through do not depend on what is stored. *)
Lemma attractions_loop_world w m todo :
  fst (attractions_loop invoke w m todo) = world_after invoke w todo.
Proof.
  unfold world_after. revert w m.
  induction todo as [|d rest IH]; intros w m; [done|].
  rewrite !attractions_loop_cons, (IH _ (<[d:=_]> m)). symmetry. apply IH.
Qed.

Lemma world_after_cons w destination rest :
  world_after invoke w (destination :: rest)
  = world_after invoke (fst (try_destination invoke w destination)) rest.
Proof.
  unfold world_after at 1.
  by rewrite attractions_loop_cons, attractions_loop_world.
Qed.

(** A key the loop does not meet keeps its entry. *)
Lemma attractions_loop_lookup_other w m todo k :
  k ∉ todo -> snd (attractions_loop invoke w m todo) !! k = m !! k.
Proof.
  revert w m. induction todo as [|d rest IH]; intros w m Hk; [done|].
  apply not_elem_of_cons in Hk as [Hd Hrest].
  rewrite attractions_loop_cons, IH by done. by rewrite lookup_insert_ne.
Qed.

(** The entry of a key is the one stored at its last occurrence. *)
Lemma attractions_loop_lookup_last w m todo i k :
  todo !! i = Some k -> k ∉ drop (S i) todo ->
  snd (attractions_loop invoke w m todo) !! k
  = Some (entry_of (snd (try_destination invoke (world_after invoke w (take i todo)) k))).
Proof.
  revert w m i. induction todo as [|d rest IH]; intros w m i Hi Hlast; [done|].
  rewrite attractions_loop_cons. destruct i as [|i]; simpl in *.
  - injection Hi as ->. rewrite drop_0 in Hlast.
    rewrite attractions_loop_lookup_other by done. by rewrite lookup_insert_eq.
  - rewrite (IH _ _ i) by done. by rewrite world_after_cons.
Qed.

Lemma attractions_loop_dom w m todo :
  dom (snd (attractions_loop invoke w m todo)) = dom m ∪ list_to_set todo.
Proof.
  revert w m. induction todo as [|d rest IH]; intros w m.
  - simpl. by rewrite (right_id_L ∅ (∪)).
  - rewrite attractions_loop_cons, IH, dom_insert_L, list_to_set_cons.
    by rewrite (comm_L (∪) {[d]} (dom m)), (assoc_L (∪)).
Qed.

(** Every stored entry comes from a parsed response or is the marker. *)
Lemma entry_of_try_truthy w destination line :
  line ∈ entry_of (snd (try_destination invoke w destination)) -> truthy line = true.
Proof.
  rewrite try_destination_answer.
  destruct (invoke w _) as [w' [response|e]]; simpl.
  - destruct (content response); simpl.
    + apply parse_attractions_truthy.
    + by intros ->%list_elem_of_singleton.
  - by intros ->%list_elem_of_singleton.
Qed.

Lemma attractions_loop_truthy w m todo :
  map_Forall (fun _ entry => Forall (fun line => truthy line = true) entry) m ->
  map_Forall (fun _ entry => Forall (fun line => truthy line = true) entry)
    (snd (attractions_loop invoke w m todo)).
Proof.
  revert w m. induction todo as [|d rest IH]; intros w m Hm; [done|].
  rewrite attractions_loop_cons. apply IH, map_Forall_insert_2; [|done].
  apply Forall_forall. intros line. apply entry_of_try_truthy.
Qed.

Lemma get_attractions_node_eq w state items :
  destinations state = Some items ->
  get_attractions_node invoke w state
  = (world_after invoke w items,
     Ok {| attractions := Some (snd (attractions_loop invoke w ∅ items));
           step := Some 3; messages := Some []; destinations := None |}).
Proof.
  intros H. unfold get_attractions_node. rewrite H.
  rewrite <- attractions_loop_world with (m := ∅).
  by destruct (attractions_loop invoke w ∅ items).
Qed.

(** The entry of the [i]-th destination, read off the answer to its call. *)
Lemma entry_of_answer w todo i k r :
  todo !! i = Some k -> answer invoke w todo i = Some r ->
  entry_of (snd (try_destination invoke (world_after invoke w (take i todo)) k))
  = match r with
    | Raise e => ERROR_ENTRY
    | Ok response =>
        match content response with
        | ContentStr s => parse_attractions s
        | ContentBlocks => ERROR_ENTRY
        end
    end.
Proof.
  unfold answer. intros -> [= <-]. rewrite try_destination_answer.
  destruct (invoke _ _) as [w' [response|e]]; simpl; [|done].
  by destruct (content response).
Qed.

End Loop.

(** C1: the attractions step never fails on a list of items, whatever the
    model does.  It returns a mapping whose keys are exactly the items (none
    for the empty list, as many as items when they are distinct).  The entry
    of an item is decided by the answer to its own call alone: the
    one-element marker when the call raised or its content could not be
    parsed, the parsed list otherwise (for an item that occurs again later in
    the list, by the call of its last occurrence, the same key being written
    again).  So two runs of the step, under any two models, store the same for
    every item that was answered the same, whatever failed elsewhere. *)
Theorem attractions_isolation {World : Type}
    (invoke : World -> list Message -> World * Result Message)
    (w : World) (state : State) (items : list string) :
  destinations state = Some items ->
  exists w' results,
    get_attractions_node invoke w state
      = (w', Ok {| attractions := Some results; step := Some 3;
                   messages := Some []; destinations := None |})
    /\ (forall k, is_Some (results !! k) <-> k ∈ items)
    /\ (items = [] -> results = ∅)
    /\ (NoDup items -> size results = length items)
    /\ ERROR_ENTRY = ["Error retrieving attractions"]
    /\ (forall i k,
          items !! i = Some k -> k ∉ drop (S i) items ->
          (forall e,
              answer invoke w items i = Some (Raise e) ->
              results !! k = Some ERROR_ENTRY)
          /\ (forall response,
                 answer invoke w items i = Some (Ok response) ->
                 content response = ContentBlocks ->
                 results !! k = Some ERROR_ENTRY)
          /\ (forall response s,
                 answer invoke w items i = Some (Ok response) ->
                 content response = ContentStr s ->
                 results !! k = Some (parse_attractions s)))
    /\ (forall (World2 : Type)
               (invoke2 : World2 -> list Message -> World2 * Result Message)
               (w2 w2' : World2) (results2 : gmap string (list string)),
          get_attractions_node invoke2 w2 state
            = (w2', Ok {| attractions := Some results2; step := Some 3;
                          messages := Some []; destinations := None |}) ->
          forall j k,
            items !! j = Some k -> k ∉ drop (S j) items ->
            answer invoke w items j = answer invoke2 w2 items j ->
            results !! k = results2 !! k).
Proof.
  intros Hitems. rewrite (get_attractions_node_eq invoke w state items Hitems).
  eexists _, _. split; [reflexivity|]. split_and!.
  - intros k.
    rewrite <- elem_of_dom, attractions_loop_dom, dom_empty_L, (left_id_L ∅ (∪)).
    apply elem_of_list_to_set.
  - by intros ->.
  - intros Hnodup.
    rewrite <- size_dom, attractions_loop_dom, dom_empty_L, (left_id_L ∅ (∪)).
    by apply size_list_to_set.
  - done.
  - intros i k Hi Hlast.
    rewrite (attractions_loop_lookup_last invoke w ∅ items i k Hi Hlast).
    split_and!.
    + intros e Ha. by rewrite (entry_of_answer invoke w items i k _ Hi Ha).
    + intros response Ha Hc.
      by rewrite (entry_of_answer invoke w items i k _ Hi Ha), Hc.
    + intros response s Ha Hc.
      by rewrite (entry_of_answer invoke w items i k _ Hi Ha), Hc.
  - intros World2 invoke2 w2 w2' results2 Hrun2 j k Hj Hlast Hsame.
    rewrite (get_attractions_node_eq invoke2 w2 state items Hitems) in Hrun2.
    injection Hrun2 as _ <-.
    rewrite (attractions_loop_lookup_last invoke w ∅ items j k Hj Hlast).
    rewrite (attractions_loop_lookup_last invoke2 w2 ∅ items j k Hj Hlast).
    destruct (answer invoke w items j) as [r|] eqn:Ha.
    + rewrite (entry_of_answer invoke w items j k r Hj Ha).
      by rewrite (entry_of_answer invoke2 w2 items j k r Hj (eq_sym Hsame)).
    + unfold answer in Ha. by rewrite Hj in Ha.
Qed.

(** Three items and a model that raises at the second call only: three
    keys, the marker for the second, the parsed lists for the other two. *)
Lemma attractions_isolation_witness :
  exists w' results,
    get_attractions_node scripted second_call_raises (state_with three_items)
      = (w', Ok {| attractions := Some results; step := Some 3;
                   messages := Some []; destinations := None |})
    /\ (forall k, is_Some (results !! k) <-> k ∈ three_items)
    /\ size results = 3%nat
    /\ results !! "Japan-Tokyo" = Some ["Senso-ji"; "Tokyo Tower"]
    /\ results !! "France-Paris" = Some ERROR_ENTRY
    /\ results !! "Italy-Rome" = Some ["Colosseum"; "Pantheon"].
Proof.
  destruct (attractions_isolation scripted second_call_raises
              (state_with three_items) three_items eq_refl)
    as (w' & results & Hrun & Hkeys & _ & Hsize & _ & Hentry & _).
  exists w', results. split_and!; [done|done|..].
  - apply Hsize. compute_done.
  - apply (proj2 (proj2 (Hentry 0%nat "Japan-Tokyo" eq_refl ltac:(compute_done)))
             (AIMessage ("1. Senso-ji" +:+ newline +:+ "2. Tokyo Tower")) _
             eq_refl eq_refl).
  - apply (proj1 (Hentry 1%nat "France-Paris" eq_refl ltac:(compute_done))
             LLMError eq_refl).
  - apply (proj2 (proj2 (Hentry 2%nat "Italy-Rome" eq_refl ltac:(compute_done)))
             (AIMessage ("1. Colosseum" +:+ newline +:+ "2. Pantheon")) _
             eq_refl eq_refl).
Defined.

(** C10: when the attractions step has returned, no string in any entry of
    the mapping is empty: a line that cleaning leaves empty is not stored, and
    the marker of a failed item is one string, not empty. *)
Theorem attractions_nonempty {World : Type}
    (invoke : World -> list Message -> World * Result Message)
    (w w' : World) (state partial : State) (results : gmap string (list string)) :
  get_attractions_node invoke w state = (w', Ok partial) ->
  attractions partial = Some results ->
  (forall k entry line, results !! k = Some entry -> line ∈ entry -> line <> "")
  /\ (forall text line, line ∈ parse_attractions text -> line <> "")
  /\ (exists marker, ERROR_ENTRY = [marker] /\ marker <> "").
Proof.
  intros Hrun Hresults. split_and!.
  - destruct (destinations state) as [items|] eqn:Hitems.
    + rewrite (get_attractions_node_eq invoke w state items Hitems) in Hrun.
      injection Hrun as _ <-. simpl in Hresults. injection Hresults as <-.
      intros k entry line Hk Hline ->.
      pose proof (attractions_loop_truthy invoke w ∅ items (map_Forall_empty _)) as Hall.
      specialize (Hall k entry Hk). rewrite Forall_forall in Hall.
      by specialize (Hall _ Hline).
    + unfold get_attractions_node in Hrun. by rewrite Hitems in Hrun.
  - intros text line Hline ->. by apply parse_attractions_truthy in Hline.
  - by eexists.
Qed.

Lemma attractions_nonempty_witness :
  snd (attractions_loop scripted second_call_raises ∅ three_items) !! "Japan-Tokyo"
    = Some ["Senso-ji"; "Tokyo Tower"]
  /\ "Tokyo Tower" <> "".
Proof.
  assert (snd (attractions_loop scripted second_call_raises ∅ three_items)
            !! "Japan-Tokyo" = Some ["Senso-ji"; "Tokyo Tower"]) as Hentry
    by reflexivity.
  split; [exact Hentry|].
  apply (proj1 (attractions_nonempty scripted second_call_raises []
                  (state_with three_items) _ _
                  (get_attractions_node_eq scripted second_call_raises
                     (state_with three_items) three_items eq_refl)
                  eq_refl)
           "Japan-Tokyo" ["Senso-ji"; "Tokyo Tower"] "Tokyo Tower" Hentry).
  compute_done.
Defined.

(** C6 (as amended): for an item that was processed without exception, the
    entry stored is made of the lines of the response that are not blank and
    hold a digit or a letter; each is stripped of its surrounding white space
    and of its leading digits, dots and spaces; those left empty are dropped;
    the first five remain. *)
Theorem stored_attractions_kept {World : Type}
    (invoke : World -> list Message -> World * Result Message)
    (w : World) (state : State) (items : list string) (i : nat) (k : string)
    (response : Message) (s : string) :
  destinations state = Some items ->
  items !! i = Some k -> k ∉ drop (S i) items ->
  answer invoke w items i = Some (Ok response) ->
  content response = ContentStr s ->
  exists w' results,
    get_attractions_node invoke w state
      = (w', Ok {| attractions := Some results; step := Some 3;
                   messages := Some []; destinations := None |})
    /\ results !! k = Some (kept_attractions s)
    /\ (length (kept_attractions s) <= 5)%nat.
Proof.
  intros Hitems Hi Hlast Ha Hc.
  rewrite (get_attractions_node_eq invoke w state items Hitems).
  eexists _, _. split_and!; [reflexivity| |].
  - rewrite (attractions_loop_lookup_last invoke w ∅ items i k Hi Hlast).
    rewrite (entry_of_answer invoke w items i k _ Hi Ha), Hc.
    by rewrite parse_attractions_kept.
  - unfold kept_attractions. rewrite length_take. lia.
Qed.

(** A response with a rule line, a bare number and a dashed line: the
    first two are not blank, yet nothing is stored for them, and the dash of
    the third is kept. *)
Lemma attractions_not_every_nonblank_line :
  exists w' results,
    get_attractions_node scripted [Ok (AIMessage ruled_response)]
        (state_with ["France-Paris"])
      = (w', Ok {| attractions := Some results; step := Some 3;
                   messages := Some []; destinations := None |})
    /\ results !! "France-Paris" = Some ["- Louvre"]
    /\ claimed_attractions ruled_response = ["---"; ""; "- Louvre"]
    /\ results !! "France-Paris" <> Some (claimed_attractions ruled_response).
Proof.
  rewrite (get_attractions_node_eq scripted [Ok (AIMessage ruled_response)]
             (state_with ["France-Paris"]) ["France-Paris"] eq_refl).
  eexists _, _. split_and!; [reflexivity|reflexivity|reflexivity|].
  vm_compute. discriminate.
Qed.

Lemma stored_attractions_kept_witness :
  exists w' results,
    get_attractions_node scripted [Ok (AIMessage ruled_response)]
        (state_with ["France-Paris"])
      = (w', Ok {| attractions := Some results; step := Some 3;
                   messages := Some []; destinations := None |})
    /\ results !! "France-Paris" = Some (kept_attractions ruled_response)
    /\ (length (kept_attractions ruled_response) <= 5)%nat.
Proof.
  apply (stored_attractions_kept scripted [Ok (AIMessage ruled_response)]
           (state_with ["France-Paris"]) ["France-Paris"] 0 "France-Paris"
           (AIMessage ruled_response) ruled_response);
    [reflexivity | reflexivity | compute_done | reflexivity | reflexivity].
Defined.

(** ** The router *)

(** C2: the router is a function of the control value alone, defined for
    every integer: control 1 names the destinations step, 2 the attractions
    step, 3 the report step, and every other integer, 0, 4 and -1 among them,
    gives [END]. *)
Theorem route_by_step_total (state : State) (control : Z) :
  step state = Some control ->
  (control = 1 -> route_by_step state = To get_destinations)
  /\ (control = 2 -> route_by_step state = To get_attractions)
  /\ (control = 3 -> route_by_step state = To display_results)
  /\ (control <> 1 -> control <> 2 -> control <> 3 -> route_by_step state = END)
  /\ (control = 0 \/ control = 4 \/ control = -1 -> route_by_step state = END).
Proof.
  intros Hstep. unfold route_by_step. rewrite Hstep. simpl.
  split_and!.
  - by intros ->.
  - by intros ->.
  - by intros ->.
  - intros H1 H2 H3.
    destruct (Z.eqb_spec control 1); [done|].
    destruct (Z.eqb_spec control 2); [done|].
    by destruct (Z.eqb_spec control 3).
  - by intros [->|[->| ->]].
Qed.

Lemma route_by_step_total_witness :
  route_by_step initial_state = To get_destinations
  /\ route_by_step (state_at 2) = To get_attractions
  /\ route_by_step (state_at 3) = To display_results
  /\ route_by_step (state_at 0) = END
  /\ route_by_step (state_at 4) = END
  /\ route_by_step (state_at (-1)) = END
  /\ route_by_step (state_at 7) = END.
Proof.
  split_and!.
  - by apply (proj1 (route_by_step_total initial_state 1 eq_refl)).
  - by apply (proj1 (proj2 (route_by_step_total (state_at 2) 2 eq_refl))).
  - by apply (proj1 (proj2 (proj2 (route_by_step_total (state_at 3) 3 eq_refl)))).
  - apply (proj2 (proj2 (proj2 (proj2 (route_by_step_total (state_at 0) 0 eq_refl))))).
    by left.
  - apply (proj2 (proj2 (proj2 (proj2 (route_by_step_total (state_at 4) 4 eq_refl))))).
    by right; left.
  - apply (proj2 (proj2 (proj2 (proj2
             (route_by_step_total (state_at (-1)) (-1) eq_refl))))).
    by right; right.
  - by apply (proj1 (proj2 (proj2 (proj2
                (route_by_step_total (state_at 7) 7 eq_refl))))).
Defined.

(** ** Merge *)

(** C8: a dictionary that holds the destinations only leaves the messages,
    the attractions and the step of the state as they were.  Key by key:
    [messages] are appended, [destinations], [attractions] and [step] are
    overwritten, and a key the dictionary does not hold leaves its field
    untouched; so after two dictionaries with an [attractions] mapping each,
    the state holds the second mapping, not the union. *)
Theorem merge_policies (current partial : State) :
  (forall items,
      destinations partial = Some items ->
      messages partial = None -> attractions partial = None -> step partial = None ->
      destinations (merge current partial) = Some items
      /\ messages (merge current partial) = messages current
      /\ attractions (merge current partial) = attractions current
      /\ step (merge current partial) = step current)
  /\ (forall new, messages partial = Some new ->
        messages (merge current partial)
        = Some (default [] (messages current) ++ new))
  /\ (forall new, destinations partial = Some new ->
        destinations (merge current partial) = Some new)
  /\ (forall new, attractions partial = Some new ->
        attractions (merge current partial) = Some new)
  /\ (forall new, step partial = Some new ->
        step (merge current partial) = Some new)
  /\ (messages partial = None ->
        messages (merge current partial) = messages current)
  /\ (destinations partial = None ->
        destinations (merge current partial) = destinations current)
  /\ (attractions partial = None ->
        attractions (merge current partial) = attractions current)
  /\ (step partial = None -> step (merge current partial) = step current)
  /\ (forall later first second,
        attractions partial = Some first -> attractions later = Some second ->
        attractions (merge (merge current partial) later) = Some second).
Proof.
  unfold merge, add_messages. simpl. split_and!.
  - by intros items -> -> -> ->.
  - by intros new ->.
  - by intros new ->.
  - by intros new ->.
  - by intros new ->.
  - by intros ->.
  - by intros ->.
  - by intros ->.
  - by intros ->.
  - by intros later first second -> ->.
Qed.

(** Two dictionaries with different mappings: the second one is what is
    left, and the key of the first one is gone. *)
Lemma merge_policies_witness :
  attractions
    (merge (merge initial_state
              {| messages := None; destinations := None; step := None;
                 attractions := Some {[ "Japan-Tokyo" := ["Tokyo Tower"] ]} |})
       {| messages := None; destinations := None; step := None;
          attractions := Some {[ "France-Paris" := ["Louvre"] ]} |})
  = Some {[ "France-Paris" := ["Louvre"] ]}
  /\ messages (merge initial_state
                 {| messages := None; destinations := Some ["Japan-Tokyo"];
                    attractions := None; step := None |})
     = messages initial_state.
Proof.
  split.
  - destruct (merge_policies initial_state
                {| messages := None; destinations := None; step := None;
                   attractions := Some {[ "Japan-Tokyo" := ["Tokyo Tower"] ]} |})
      as (_ & _ & _ & _ & _ & _ & _ & _ & _ & Htwice).
    exact (Htwice
             {| messages := None; destinations := None; step := None;
                attractions := Some {[ "France-Paris" := ["Louvre"] ]} |}
             _ _ eq_refl eq_refl).
  - destruct (merge_policies initial_state
                {| messages := None; destinations := Some ["Japan-Tokyo"];
                   attractions := None; step := None |})
      as (Honly & _).
    exact (proj1 (proj2 (Honly ["Japan-Tokyo"] eq_refl eq_refl eq_refl eq_refl))).
Defined.

(** ** The engine *)

Section RunFacts.

Context {World : Type}.
Variable invoke : World -> list Message -> World * Result Message.

Lemma run_Ok fuel w state n w1 partial :
  node_function invoke n w state = (w1, Ok partial) ->
  run invoke (S fuel) w state n =
    match next_target n (merge state partial) with
    | Raise e => Some {| run_world := w1; run_result := Raise e; run_trace := [n] |}
    | Ok END =>
        Some {| run_world := w1; run_result := Ok (merge state partial);
                run_trace := [n] |}
    | Ok (To n') =>
        match run invoke fuel w1 (merge state partial) n' with
        | Some rest =>
            Some {| run_world := run_world rest; run_result := run_result rest;
                    run_trace := n :: run_trace rest |}
        | None => None
        end
    end.
Proof. intros H. cbn [run]. by rewrite H. Qed.

Lemma run_Raise fuel w state n w1 e :
  node_function invoke n w state = (w1, Raise e) ->
  run invoke (S fuel) w state n
  = Some {| run_world := w1; run_result := Raise e; run_trace := [n] |}.
Proof. intros H. cbn [run]. by rewrite H. Qed.

(** More fuel does not change a run that ended. *)
Lemma run_mono fuel fuel' w state n r :
  run invoke fuel w state n = Some r -> (fuel <= fuel')%nat ->
  run invoke fuel' w state n = Some r.
Proof.
  revert fuel' w state n r.
  induction fuel as [|fuel IH]; intros fuel' w state n r Hrun Hle; [done|].
  destruct fuel' as [|fuel']; [lia|].
  cbn [run] in *. destruct (node_function invoke n w state) as [w1 [partial|e]]; [|done].
  destruct (next_target n (merge state partial)) as [[n'|]|e]; [|done..].
  destruct (run invoke fuel w1 (merge state partial) n') as [rest|] eqn:E; [|done].
  by rewrite (IH fuel' _ _ _ _ E) by lia.
Qed.

(** The control value each node returns. *)
Lemma get_destinations_node_step w state w' partial :
  get_destinations_node invoke w state = (w', Ok partial) -> step partial = Some 2.
Proof.
  unfold get_destinations_node.
  destruct (invoke w _) as [w1 [response|e]]; [|done].
  destruct (content_strip response); [|done]. by intros [= _ <-].
Qed.

Lemma get_attractions_node_step w state w' partial :
  get_attractions_node invoke w state = (w', Ok partial) ->
  step partial = Some 3 /\ messages partial = Some [].
Proof.
  unfold get_attractions_node. destruct (destinations state); [|done].
  destruct (attractions_loop invoke w ∅ _). by intros [= _ <-].
Qed.

Lemma display_results_node_step (w : World) state w' partial :
  display_results_node w state = (w', Ok partial) -> partial = state_at 0.
Proof.
  unfold display_results_node.
  destruct (destinations state); [|done].
  destruct (attractions state); [|done]. by intros [= _ <-].
Qed.

(** The run when the first call is answered with a string. *)
Lemma run_complete fuel w w1 response s :
  invoke w [GET_DESTINATIONS_PROMPT] = (w1, Ok response) ->
  content response = ContentStr s ->
  app_stream invoke (S (S (S fuel))) w initial_state
  = Some {| run_world := world_after invoke w1 (take 10 (stripped_lines (strip s)));
            run_result :=
              Ok {| messages := Some [response];
                    destinations := Some (take 10 (stripped_lines (strip s)));
                    attractions :=
                      Some (snd (attractions_loop invoke w1 ∅
                                   (take 10 (stripped_lines (strip s)))));
                    step := Some 0 |};
            run_trace := [get_destinations; get_attractions; display_results] |}.
Proof.
  intros Hcall Hcontent. unfold app_stream, entry_point.
  set (items := take 10 (stripped_lines (strip s))).
  set (partial1 := {| destinations := Some items; step := Some 2;
                      messages := Some [response]; attractions := None |}).
  assert (node_function invoke get_destinations w (merge empty_dict initial_state)
          = (w1, Ok partial1)) as H1.
  { unfold node_function, get_destinations_node, content_strip.
    by rewrite Hcall, Hcontent. }
  rewrite (run_Ok _ _ _ _ _ _ H1).
  change (next_target get_destinations (merge (merge empty_dict initial_state) partial1))
    with (@Ok Target (To get_attractions)).
  cbv beta iota.
  set (state1 := merge (merge empty_dict initial_state) partial1).
  pose proof (get_attractions_node_eq invoke w1 state1 items eq_refl) as H2.
  rewrite (run_Ok _ _ _ get_attractions _ _ H2).
  match goal with |- context [merge state1 ?p] => set (partial2 := p) end.
  change (next_target get_attractions (merge state1 partial2))
    with (@Ok Target (To display_results)).
  cbv beta iota.
  set (state2 := merge state1 partial2).
  assert (node_function invoke display_results (world_after invoke w1 items) state2
          = (world_after invoke w1 items, Ok (state_at 0))) as H3 by reflexivity.
  rewrite (run_Ok _ _ _ display_results _ _ H3).
  reflexivity.
Qed.

(** The run when the first call raises, or answers no string. *)
Lemma run_aborted fuel w w1 r :
  invoke w [GET_DESTINATIONS_PROMPT] = (w1, r) ->
  match r with
  | Raise _ => True
  | Ok response => content response = ContentBlocks
  end ->
  app_stream invoke (S fuel) w initial_state
  = Some {| run_world := w1;
            run_result :=
              Raise match r with Raise e => e | Ok _ => AttributeError end;
            run_trace := [get_destinations] |}.
Proof.
  intros Hcall Hr. unfold app_stream, entry_point. apply run_Raise.
  unfold node_function, get_destinations_node, content_strip. rewrite Hcall.
  destruct r as [response|e]; [|done]. by rewrite Hr.
Qed.

End RunFacts.

(** C3 (as amended): whatever the model does, a run from the entry step
    with control 1 ends within three node executions, no node twice, and more
    fuel than three changes nothing.  It returns a final state when the call of
    the destinations step is answered with a string: the three steps ran in
    order, the control went 2, 3, 0, and the router sends 0 to [END].  When
    that call raises, or answers what cannot be parsed, the run ends after
    that one step with the exception, and returns no state. *)
Theorem workflow_terminates {World : Type}
    (invoke : World -> list Message -> World * Result Message) (w : World) :
  exists r,
    (forall fuel, (3 <= fuel)%nat -> app_stream invoke fuel w initial_state = Some r)
    /\ (length (run_trace r) <= 3)%nat
    /\ NoDup (run_trace r)
    /\ (forall w1 response s,
          invoke w [GET_DESTINATIONS_PROMPT] = (w1, Ok response) ->
          content response = ContentStr s ->
          exists final,
            run_result r = Ok final
            /\ run_trace r = [get_destinations; get_attractions; display_results]
            /\ step final = Some 0
            /\ route_by_step final = END)
    /\ (forall w1 e,
          invoke w [GET_DESTINATIONS_PROMPT] = (w1, Raise e) ->
          run_result r = Raise e /\ run_trace r = [get_destinations])
    /\ (forall w1 response,
          invoke w [GET_DESTINATIONS_PROMPT] = (w1, Ok response) ->
          content response = ContentBlocks ->
          run_result r = Raise AttributeError /\ run_trace r = [get_destinations])
    /\ (forall w0 state w' partial,
          get_destinations_node invoke w0 state = (w', Ok partial) ->
          step partial = Some 2)
    /\ (forall w0 state w' partial,
          get_attractions_node invoke w0 state = (w', Ok partial) ->
          step partial = Some 3)
    /\ (forall (w0 : World) state w' partial,
          display_results_node w0 state = (w', Ok partial) ->
          step partial = Some 0).
Proof.
  assert (forall w0 state w' partial,
             get_destinations_node invoke w0 state = (w', Ok partial) ->
             step partial = Some 2) as Hs1
    by apply get_destinations_node_step.
  assert (forall w0 state w' partial,
             get_attractions_node invoke w0 state = (w', Ok partial) ->
             step partial = Some 3) as Hs2.
  { intros w0 state w' partial H. by apply get_attractions_node_step in H as [? _]. }
  assert (forall (w0 : World) state w' partial,
             display_results_node w0 state = (w', Ok partial) ->
             step partial = Some 0) as Hs3.
  { intros w0 state w' partial H. by apply display_results_node_step in H as ->. }
  destruct (invoke w [GET_DESTINATIONS_PROMPT]) as [w1 r1] eqn:Hcall.
  assert (forall fuel, (3 <= fuel)%nat -> exists f, fuel = S (S (S f))) as Hfuel.
  { intros fuel Hle. exists (fuel - 3)%nat. lia. }
  destruct r1 as [response|e]; [destruct (content response) as [s|] eqn:Hcontent|].
  - eexists. split_and!; [| | | | | |done..].
    + intros fuel [f ->]%Hfuel. by apply run_complete with (s := s).
    + simpl. lia.
    + simpl. compute_done.
    + intros w1' response' s' [= <- <-] _. by eexists.
    + done.
    + intros w1' response' [= <- <-] Hc. congruence.
  - eexists. split_and!; [| | | | | |done..].
    + intros fuel [f ->]%Hfuel.
      by apply (run_aborted invoke _ w w1 (Ok response) Hcall).
    + simpl. lia.
    + simpl. compute_done.
    + intros w1' response' s' [= <- <-] Hc. congruence.
    + done.
    + by intros w1' response' [= <- <-] _.
  - eexists. split_and!; [| | | | | |done..].
    + intros fuel [f ->]%Hfuel.
      by apply (run_aborted invoke _ w w1 (Raise e) Hcall).
    + simpl. lia.
    + simpl. compute_done.
    + done.
    + by intros w1' e' [= <- <-].
    + done.
Qed.

(** A model that raises at its first call: the run ends with the
    exception after the destinations step, and no amount of fuel makes it
    return a state. *)
Lemma run_without_final_state :
  app_stream scripted 3 [] initial_state
    = Some {| run_world := []; run_result := Raise LLMError;
              run_trace := [get_destinations] |}
  /\ ~ (exists fuel r final,
          app_stream scripted fuel [] initial_state = Some r
          /\ run_result r = Ok final).
Proof.
  split; [reflexivity|].
  intros (fuel & r & final & Hrun & Hfinal).
  destruct fuel as [|fuel]; [done|].
  rewrite (run_aborted scripted fuel [] [] (Raise LLMError) eq_refl I) in Hrun.
  injection Hrun as <-. done.
Qed.

Lemma workflow_terminates_witness :
  exists r,
    app_stream scripted 3 two_destinations initial_state = Some r
    /\ run_trace r = [get_destinations; get_attractions; display_results]
    /\ exists final, run_result r = Ok final /\ route_by_step final = END.
Proof.
  destruct (workflow_terminates scripted two_destinations)
    as (r & Hrun & _ & _ & Hfinal & _).
  exists r. split; [by apply Hrun|].
  destruct (Hfinal _ (AIMessage ("Japan-Tokyo" +:+ newline +:+ "France-Paris")) _
              eq_refl eq_refl) as (final & Hr & Htrace & _ & Hroute).
  split; [done|]. by exists final.
Defined.

(** C9: the destinations step is the only one that appends to the
    conversation.  The attractions step returns an empty list of messages and
    the report step a dictionary with the control value alone; so the state a
    complete run from the initial state returns holds one message, the
    response the model gave in the destinations step. *)
Theorem conversation_single_message {World : Type}
    (invoke : World -> list Message -> World * Result Message)
    (w : World) (fuel : nat) (r : Run World) (final : State) :
  app_stream invoke fuel w initial_state = Some r ->
  run_result r = Ok final ->
  (exists w1 response,
      invoke w [GET_DESTINATIONS_PROMPT] = (w1, Ok response)
      /\ messages final = Some [response])
  /\ (forall w0 state w' partial,
        get_attractions_node invoke w0 state = (w', Ok partial) ->
        messages partial = Some [])
  /\ (forall (w0 : World) state w' partial,
        display_results_node w0 state = (w', Ok partial) ->
        partial = {| messages := None; destinations := None; attractions := None;
                     step := Some 0 |}).
Proof.
  intros Hrun Hfinal. split_and!.
  - assert (app_stream invoke (S (S (S fuel))) w initial_state = Some r) as Hrun3.
    { unfold app_stream in *. apply (run_mono invoke fuel); [done|lia]. }
    destruct (invoke w [GET_DESTINATIONS_PROMPT]) as [w1 r1] eqn:Hcall.
    destruct r1 as [response|e]; [destruct (content response) as [s|] eqn:Hcontent|].
    + rewrite (run_complete invoke _ w w1 response s Hcall Hcontent) in Hrun3.
      injection Hrun3 as <-. simpl in Hfinal. injection Hfinal as <-.
      by exists w1, response.
    + rewrite (run_aborted invoke _ w w1 (Ok response) Hcall Hcontent) in Hrun3.
      injection Hrun3 as <-. done.
    + rewrite (run_aborted invoke _ w w1 (Raise e) Hcall I) in Hrun3.
      injection Hrun3 as <-. done.
  - intros w0 state w' partial H. by apply get_attractions_node_step in H as [_ ?].
  - intros w0 state w' partial H. by apply display_results_node_step in H as ->.
Qed.

Lemma conversation_single_message_witness :
  exists r final,
    app_stream scripted 3 two_destinations initial_state = Some r
    /\ run_result r = Ok final
    /\ messages final
       = Some [AIMessage ("Japan-Tokyo" +:+ newline +:+ "France-Paris")].
Proof.
  pose proof (run_complete scripted 0 two_destinations _ _ _ eq_refl eq_refl) as Hrun.
  eexists _, _. split; [exact Hrun|]. split; [reflexivity|].
  destruct (conversation_single_message scripted two_destinations 3 _ _ Hrun eq_refl)
    as ((w1 & response & Hcall & Hmessages) & _).
  injection Hcall as _ <-. exact Hmessages.
Defined.

(** * Further properties *)

(** ** More on strings *)

Lemma lstrip_idemp s : lstrip (lstrip s) = lstrip s.
Proof.
  induction s as [|a r IH]; [done|]. simpl.
  destruct (isspace a) eqn:Ha; [done|]. simpl. by rewrite Ha.
Qed.

Lemma rstrip_idemp s : rstrip (rstrip s) = rstrip s.
Proof.
  induction s as [|a r IH]; [done|]. rewrite rstrip_String.
  destruct (truthy (rstrip r)) eqn:E.
  - by rewrite rstrip_String, IH, E.
  - destruct (isspace a) eqn:Ha; [done|]. simpl. by rewrite Ha.
Qed.

Lemma rstrip_fixed_tail a r : rstrip (String a r) = String a r -> r = EmptyString \/ rstrip r = r.
Proof.
  rewrite rstrip_String. destruct (truthy (rstrip r)) eqn:E.
  - intros [= H]. by right.
  - destruct (isspace a); [done|]. intros [= <-]. by left.
Qed.

(** Dropping characters on the left of a right-stripped string leaves a
    right-stripped string. *)
Lemma lstrip_rstripped s : rstrip s = s -> rstrip (lstrip s) = lstrip s.
Proof.
  induction s as [|a r IH]; [done|]. intros H. simpl.
  destruct (isspace a); [|done].
  destruct (rstrip_fixed_tail a r H) as [->|Hr]; [done|]. by apply IH.
Qed.

Lemma lstrip_chars_rstripped chars s :
  rstrip s = s -> rstrip (lstrip_chars chars s) = lstrip_chars chars s.
Proof.
  induction s as [|a r IH]; [done|]. intros H. simpl.
  destruct (contains a chars); [|done].
  destruct (rstrip_fixed_tail a r H) as [->|Hr]; [done|]. by apply IH.
Qed.

Lemma rstrip_strip s : rstrip (strip s) = strip s.
Proof. unfold strip. apply lstrip_rstripped, rstrip_idemp. Qed.

Lemma strip_idemp s : strip (strip s) = strip s.
Proof. unfold strip at 1. rewrite rstrip_strip. unfold strip. apply lstrip_idemp. Qed.

Lemma contains_lstrip c s : contains c s = false -> contains c (lstrip s) = false.
Proof.
  induction s as [|a r IH]; [done|]. simpl.
  destruct (isspace a); [|done]. intros [_ H]%orb_false_iff. by apply IH.
Qed.

Lemma contains_lstrip_chars c chars s :
  contains c s = false -> contains c (lstrip_chars chars s) = false.
Proof.
  induction s as [|a r IH]; [done|]. simpl.
  destruct (contains a chars); [|done]. intros [_ H]%orb_false_iff. by apply IH.
Qed.

Lemma contains_rstrip c s : contains c s = false -> contains c (rstrip s) = false.
Proof.
  induction s as [|a r IH]; [done|]. simpl contains at 1.
  intros [Ha Hr]%orb_false_iff. rewrite rstrip_String.
  destruct (truthy (rstrip r)).
  - simpl. by rewrite Ha, IH.
  - destruct (isspace a); [done|]. simpl. by rewrite Ha.
Qed.

Lemma contains_strip c s : contains c s = false -> contains c (strip s) = false.
Proof. intros H. by apply contains_lstrip, contains_rstrip. Qed.

(** No field of a split holds the separator. *)
Lemma split_field_no_sep sep s field :
  field ∈ split sep s -> contains sep field = false.
Proof.
  revert field. induction s as [|a r IH]; intros field; simpl.
  - by intros ->%list_elem_of_singleton.
  - destruct (Ascii.eqb a sep) eqn:Ea.
    + intros [->|H]%elem_of_cons; [done|by apply IH].
    + destruct (split_cons sep r) as (h & t & Hs). rewrite Hs in *.
      intros [->|H]%elem_of_cons.
      * simpl. rewrite Ea. apply IH. by left.
      * apply IH. by right.
Qed.

(** What a field holds, the text holds. *)
Lemma split_field_any p sep s field :
  field ∈ split sep s -> any p field = true -> any p s = true.
Proof.
  revert field. induction s as [|a r IH]; intros field; simpl.
  - by intros ->%list_elem_of_singleton.
  - destruct (Ascii.eqb a sep) eqn:Ea.
    + intros [->|H]%elem_of_cons; [done|]. intros Hf.
      rewrite (IH _ H Hf). by rewrite orb_true_r.
    + destruct (split_cons sep r) as (h & t & Hs). rewrite Hs in *.
      intros [->|H]%elem_of_cons; simpl.
      * intros [->|Hf]%orb_true_iff; [done|].
        rewrite (IH h) by (done || by left). by rewrite orb_true_r.
      * intros Hf. rewrite (IH field) by (done || by right). by rewrite orb_true_r.
Qed.

Lemma lstrip_chars_head chars s c rest :
  lstrip_chars chars s = String c rest -> contains c chars = false.
Proof.
  induction s as [|a r IH]; [done|]. simpl.
  destruct (contains a chars) eqn:Ha; [done|]. by intros [= <- _].
Qed.

(** ** What the destinations step stores *)

Lemma stripped_lines_elem text item :
  item ∈ stripped_lines text ->
  exists line, line ∈ split LF text /\ item = strip line /\ truthy item = true.
Proof.
  unfold stripped_lines. rewrite list_elem_of_In, List.in_map_iff.
  intros (line & <- & [Hin Ht]%List.filter_In).
  exists line. by rewrite list_elem_of_In.
Qed.

(** X1: the destinations the step stores are at most ten, and each is a
    clean one-line string: not empty, without surrounding white space (it is
    its own [strip]) and without a line feed inside. *)
Theorem destinations_well_formed {World : Type}
    (invoke : World -> list Message -> World * Result Message)
    (w w' : World) (state partial : State) (items : list string) :
  get_destinations_node invoke w state = (w', Ok partial) ->
  destinations partial = Some items ->
  (length items <= 10)%nat
  /\ (forall item, item ∈ items ->
        item <> "" /\ strip item = item /\ contains LF item = false).
Proof.
  unfold get_destinations_node, content_strip.
  destruct (invoke w _) as [w1 [response|e]]; [|done].
  destruct (content response) as [s|]; [|done].
  intros [= _ <-] [= <-]. split.
  - rewrite length_take. lia.
  - intros item (line & Hline & -> & Ht)%(subseteq_take 10)%stripped_lines_elem.
    split_and!.
    + intros H. by rewrite H in Ht.
    + apply strip_idemp.
    + apply contains_strip. by apply (split_field_no_sep LF (strip s)).
Qed.

Lemma destinations_well_formed_witness :
  get_destinations_node scripted
      [Ok (AIMessage (" Japan-Tokyo" +:+ newline +:+ newline +:+ "Italy-Rome  "))]
      initial_state
    = ([], Ok {| destinations := Some ["Japan-Tokyo"; "Italy-Rome"]; step := Some 2;
                 messages :=
                   Some [AIMessage (" Japan-Tokyo" +:+ newline +:+ newline
                                    +:+ "Italy-Rome  ")];
                 attractions := None |})
  /\ (length ["Japan-Tokyo"; "Italy-Rome"] <= 10)%nat
  /\ "Italy-Rome" <> ""
  /\ strip "Italy-Rome" = "Italy-Rome"
  /\ contains LF "Italy-Rome" = false.
Proof.
  assert (get_destinations_node scripted
            [Ok (AIMessage (" Japan-Tokyo" +:+ newline +:+ newline +:+ "Italy-Rome  "))]
            initial_state
          = ([], Ok {| destinations := Some ["Japan-Tokyo"; "Italy-Rome"];
                       step := Some 2;
                       messages :=
                         Some [AIMessage (" Japan-Tokyo" +:+ newline +:+ newline
                                          +:+ "Italy-Rome  ")];
                       attractions := None |})) as Hnode by reflexivity.
  destruct (destinations_well_formed scripted _ _ _ _ _ Hnode eq_refl)
    as [Hlen Hitems].
  split_and!; [exact Hnode | exact Hlen | apply (Hitems "Italy-Rome")..];
    apply list_elem_of_lookup; by exists 1%nat.
Defined.

(** ** What the attractions step stores *)

Lemma parse_attractions_elem text line :
  line ∈ parse_attractions text ->
  exists raw, raw ∈ split LF (strip text) /\ line = clean_item (strip raw).
Proof.
  unfold parse_attractions. rewrite clean_loop_filter.
  intros H%(subseteq_take 5). revert H.
  rewrite list_elem_of_In, List.filter_In, List.in_map_iff.
  intros [(item & <- & Hitem) _]. revert Hitem.
  unfold attraction_lines. rewrite List.in_map_iff.
  intros (raw & <- & [Hraw _]%List.filter_In).
  exists raw. by rewrite list_elem_of_In.
Qed.

Lemma parse_attractions_clean text : clean_entry (parse_attractions text).
Proof.
  split.
  - unfold parse_attractions. rewrite length_take. lia.
  - apply Forall_forall. intros line (raw & Hraw & ->)%parse_attractions_elem.
    split_and!.
    + apply contains_lstrip_chars, contains_strip.
      by apply (split_field_no_sep LF (strip text)).
    + apply lstrip_chars_rstripped, rstrip_strip.
    + intros c rest H. by apply (lstrip_chars_head _ _ _ _ H).
Qed.

Lemma ERROR_ENTRY_clean : clean_entry ERROR_ENTRY.
Proof.
  split; [unfold ERROR_ENTRY; simpl; lia|]. apply Forall_singleton.
  split_and!; [done..|]. by intros c rest [= <- _].
Qed.

Section LoopInvariant.

Context {World : Type}.
Variable invoke : World -> list Message -> World * Result Message.

(** What holds of the marker and of every parsed response holds of every
    entry the loop stores. *)
Lemma attractions_loop_Forall (P : list string -> Prop) w m todo :
  P ERROR_ENTRY -> (forall text, P (parse_attractions text)) ->
  map_Forall (fun _ entry => P entry) m ->
  map_Forall (fun _ entry => P entry) (snd (attractions_loop invoke w m todo)).
Proof.
  intros Herror Hparsed. revert w m.
  induction todo as [|d rest IH]; intros w m Hm; [done|].
  rewrite attractions_loop_cons. apply IH, map_Forall_insert_2; [|done].
  rewrite try_destination_answer.
  destruct (invoke w _) as [w' [response|e]]; simpl; [|done].
  destruct (content response); simpl; [apply Hparsed | apply Herror].
Qed.

End LoopInvariant.

(** X2: every entry of the mapping the attractions step returns has at
    most five lines, and each of them is one line (no line feed), ends in no
    white space and starts with no digit, dot or space. *)
Theorem attractions_entries_clean {World : Type}
    (invoke : World -> list Message -> World * Result Message)
    (w w' : World) (state partial : State) (results : gmap string (list string))
    (k : string) (entry : list string) :
  get_attractions_node invoke w state = (w', Ok partial) ->
  attractions partial = Some results ->
  results !! k = Some entry ->
  (length entry <= 5)%nat
  /\ (forall line, line ∈ entry ->
        contains LF line = false
        /\ rstrip line = line
        /\ (forall c rest, line = String c rest -> contains c "0123456789. " = false)).
Proof.
  intros Hrun Hresults Hk.
  destruct (destinations state) as [items|] eqn:Hitems.
  2: { unfold get_attractions_node in Hrun. by rewrite Hitems in Hrun. }
  rewrite (get_attractions_node_eq invoke w state items Hitems) in Hrun.
  injection Hrun as _ <-. simpl in Hresults. injection Hresults as <-.
  pose proof (attractions_loop_Forall invoke clean_entry w ∅ items
                ERROR_ENTRY_clean parse_attractions_clean (map_Forall_empty _))
    as Hall.
  destruct (Hall k entry Hk) as [Hlen Hlines]. split; [done|].
  intros line Hline. rewrite Forall_forall in Hlines. by apply Hlines.
Qed.

Lemma attractions_entries_clean_witness :
  (length ["Senso-ji"; "Tokyo Tower"] <= 5)%nat
  /\ contains LF "Tokyo Tower" = false
  /\ rstrip "Tokyo Tower" = "Tokyo Tower".
Proof.
  destruct (attractions_entries_clean scripted second_call_raises []
              (state_with three_items) _ _ "Japan-Tokyo" ["Senso-ji"; "Tokyo Tower"]
              (get_attractions_node_eq scripted second_call_raises
                 (state_with three_items) three_items eq_refl)
              eq_refl eq_refl) as [Hlen Hlines].
  split; [exact Hlen|].
  destruct (Hlines "Tokyo Tower") as (Hlf & Hr & _).
  { apply list_elem_of_lookup. by exists 1%nat. }
  by split.
Defined.

Lemma split_no_alnum text line :
  has_alnum text = false -> line ∈ split LF text -> has_alnum line = false.
Proof.
  intros Htext Hline. destruct (has_alnum line) eqn:E; [|done].
  unfold has_alnum in *. by rewrite (split_field_any _ LF text line Hline E) in Htext.
Qed.

Lemma parse_attractions_no_alnum text :
  has_alnum text = false -> parse_attractions text = [].
Proof.
  intros Htext. rewrite parse_attractions_kept. unfold kept_attractions.
  assert (forall lines,
             (forall line, line ∈ lines -> has_alnum line = false) ->
             List.filter (fun line => negb (is_blank line) && has_alnum line) lines = [])
    as Hnone.
  { induction lines as [|line rest IH]; [done|]. intros H. simpl.
    rewrite (H line) by (by left). rewrite andb_false_r. apply IH.
    intros l Hl. apply H. by right. }
  rewrite Hnone; [done|]. intros line. by apply split_no_alnum.
Qed.

(** X3: a response without any digit or letter, the empty response among
    them, is no failure: the item gets the empty list, not the marker. *)
Theorem attractions_empty_entry {World : Type}
    (invoke : World -> list Message -> World * Result Message)
    (w : World) (state : State) (items : list string) (i : nat) (k : string)
    (response : Message) (s : string) :
  destinations state = Some items ->
  items !! i = Some k -> k ∉ drop (S i) items ->
  answer invoke w items i = Some (Ok response) ->
  content response = ContentStr s ->
  has_alnum s = false ->
  exists w' results,
    get_attractions_node invoke w state
      = (w', Ok {| attractions := Some results; step := Some 3;
                   messages := Some []; destinations := None |})
    /\ results !! k = Some [].
Proof.
  intros Hitems Hi Hlast Ha Hc Hs.
  rewrite (get_attractions_node_eq invoke w state items Hitems).
  eexists _, _. split; [reflexivity|].
  rewrite (attractions_loop_lookup_last invoke w ∅ items i k Hi Hlast).
  rewrite (entry_of_answer invoke w items i k _ Hi Ha), Hc.
  by rewrite parse_attractions_no_alnum.
Qed.

Lemma attractions_empty_entry_witness :
  exists w' results,
    get_attractions_node scripted [Ok (AIMessage ("---" +:+ newline +:+ " "))]
        (state_with ["Peru-Cusco"])
      = (w', Ok {| attractions := Some results; step := Some 3;
                   messages := Some []; destinations := None |})
    /\ results !! "Peru-Cusco" = Some [].
Proof.
  apply (attractions_empty_entry scripted [Ok (AIMessage ("---" +:+ newline +:+ " "))]
           (state_with ["Peru-Cusco"]) ["Peru-Cusco"] 0 "Peru-Cusco"
           (AIMessage ("---" +:+ newline +:+ " ")) ("---" +:+ newline +:+ " "));
    [reflexivity | reflexivity | compute_done | reflexivity | reflexivity | reflexivity].
Defined.

(** ** The calls made to the model *)

Section Calls.

Context {World : Type}.
Variable invoke : World -> list Message -> World * Result Message.

Lemma try_destination_logged w log destination :
  try_destination (logged invoke) (w, log) destination
  = ((fst (try_destination invoke w destination),
      log ++ [[attractions_prompt (locale destination)]]),
     snd (try_destination invoke w destination)).
Proof.
  rewrite !try_destination_answer. unfold logged. simpl.
  by destruct (invoke w _) as [w' r].
Qed.

Lemma attractions_loop_logged w log m todo :
  attractions_loop (logged invoke) (w, log) m todo
  = ((fst (attractions_loop invoke w m todo), log ++ prompts_for todo),
     snd (attractions_loop invoke w m todo)).
Proof.
  revert w log m. induction todo as [|d rest IH]; intros w log m.
  - simpl. by rewrite app_nil_r.
  - rewrite !attractions_loop_cons, try_destination_logged. simpl.
    rewrite IH. unfold prompts_for. simpl. by rewrite <- app_assoc.
Qed.

End Calls.

(** X4: the attractions step calls the model exactly once for every item
    of the list, in the order of the list, each time with the one prompt made
    for the locale of the item; a call that fails is not repeated and does not
    stop the later ones.  Recording the calls changes neither the result nor
    the world. *)
Theorem attractions_calls {World : Type}
    (invoke : World -> list Message -> World * Result Message)
    (w : World) (log : list (list Message)) (state : State) (items : list string) :
  destinations state = Some items ->
  get_attractions_node (logged invoke) (w, log) state
  = ((fst (get_attractions_node invoke w state), log ++ prompts_for items),
     snd (get_attractions_node invoke w state))
  /\ length (prompts_for items) = length items.
Proof.
  intros Hitems. split.
  - rewrite (get_attractions_node_eq (logged invoke) _ state items Hitems).
    rewrite (get_attractions_node_eq invoke w state items Hitems).
    unfold world_after. by rewrite attractions_loop_logged.
  - unfold prompts_for. by rewrite length_map.
Qed.

Lemma attractions_calls_witness :
  get_attractions_node (logged scripted) (second_call_raises, [])
      (state_with three_items)
  = ((fst (get_attractions_node scripted second_call_raises (state_with three_items)),
      [] ++ prompts_for three_items),
     snd (get_attractions_node scripted second_call_raises (state_with three_items)))
  /\ length (prompts_for three_items) = length three_items.
Proof.
  apply (attractions_calls scripted second_call_raises [] (state_with three_items)
           three_items eq_refl).
Defined.

(** X5: a run calls the model first with the destinations prompt and then
    once per stored destination, so at most eleven times; a run that does not
    get its destinations calls it once. *)
Theorem run_calls {World : Type}
    (invoke : World -> list Message -> World * Result Message)
    (w : World) (fuel : nat) (r : Run (World * list (list Message))) :
  app_stream (logged invoke) fuel (w, []) initial_state = Some r ->
  (length (snd (run_world r)) <= 11)%nat
  /\ (forall final,
        run_result r = Ok final ->
        exists items,
          destinations final = Some items
          /\ snd (run_world r) = [GET_DESTINATIONS_PROMPT] :: prompts_for items)
  /\ (forall e, run_result r = Raise e -> snd (run_world r) = [[GET_DESTINATIONS_PROMPT]]).
Proof.
  intros Hrun.
  assert (app_stream (logged invoke) (S (S (S fuel))) (w, []) initial_state = Some r)
    as Hrun3.
  { unfold app_stream in *. apply (run_mono (logged invoke) fuel); [done|lia]. }
  clear Hrun.
  destruct (invoke w [GET_DESTINATIONS_PROMPT]) as [w1 r1] eqn:Hcall.
  assert (logged invoke (w, []) [GET_DESTINATIONS_PROMPT]
          = ((w1, [[GET_DESTINATIONS_PROMPT]]), r1)) as Hlogged.
  { unfold logged. simpl. by rewrite Hcall. }
  destruct r1 as [response|e]; [destruct (content response) as [s|] eqn:Hcontent|].
  - rewrite (run_complete (logged invoke) _ _ _ response s Hlogged Hcontent) in Hrun3.
    injection Hrun3 as <-. simpl. unfold world_after.
    rewrite attractions_loop_logged. simpl. split_and!.
    + unfold prompts_for. rewrite length_map, length_take. lia.
    + intros final [= <-]. by eexists.
    + done.
  - rewrite (run_aborted (logged invoke) _ _ _ (Ok response) Hlogged Hcontent) in Hrun3.
    injection Hrun3 as <-. simpl. split_and!; [lia|done|done].
  - rewrite (run_aborted (logged invoke) _ _ _ (Raise e) Hlogged I) in Hrun3.
    injection Hrun3 as <-. simpl. split_and!; [lia|done|done].
Qed.

Lemma run_calls_witness :
  exists r,
    app_stream (logged scripted) 3 (two_destinations, []) initial_state = Some r
    /\ (length (snd (run_world r)) <= 11)%nat
    /\ snd (run_world r)
       = [GET_DESTINATIONS_PROMPT] :: prompts_for ["Japan-Tokyo"; "France-Paris"].
Proof.
  pose proof (run_complete (logged scripted) 0 (two_destinations, []) _ _ _
                eq_refl eq_refl) as Hrun.
  eexists. split; [exact Hrun|].
  destruct (run_calls scripted two_destinations 3 _ Hrun) as (Hlen & Hfinal & _).
  split; [exact Hlen|].
  destruct (Hfinal _ eq_refl) as (items & [= <-] & Hlog). exact Hlog.
Defined.

(** ** The graph goes forward *)

(** An edge leads to [END] or to a node added later. *)
Lemma next_target_later n state n' :
  next_target n state = Ok (To n') -> (node_index n < node_index n')%nat.
Proof.
  unfold next_target. destruct n; simpl.
  - destruct (route_by_step state) as [[]|]; cbv; intros [= <-] || intros [=]; lia.
  - destruct (route_by_step state) as [[]|]; cbv; intros [= <-] || intros [=]; lia.
  - done.
Qed.

Lemma sorted_index_NoDup (trace : list Node) :
  Sorted lt (map node_index trace) -> NoDup trace.
Proof.
  intros H. apply Sorted_StronglySorted in H; [|intros x y z; lia].
  induction trace as [|n rest IH]; [constructor|]. simpl in H.
  apply StronglySorted_inv in H as [Hrest Hall]. constructor; [|by apply IH].
  intros Hin. rewrite Forall_forall in Hall.
  assert (node_index n < node_index n)%nat; [|lia].
  apply Hall, list_elem_of_In, List.in_map, list_elem_of_In, Hin.
Qed.

Section Forward.

Context {World : Type}.
Variable invoke : World -> list Message -> World * Result Message.

Lemma run_forward fuel w state n :
  (3 - node_index n <= fuel)%nat ->
  exists r,
    run invoke fuel w state n = Some r
    /\ (length (run_trace r) <= 3 - node_index n)%nat
    /\ Sorted lt (map node_index (run_trace r))
    /\ head (run_trace r) = Some n.
Proof.
  revert w state n. induction fuel as [|fuel IH]; intros w state n Hfuel.
  { destruct n; simpl in Hfuel; lia. }
  cbn [run]. destruct (node_function invoke n w state) as [w1 [partial|e]].
  2: { eexists. split; [reflexivity|]. simpl.
       split_and!; [destruct n; simpl; lia | repeat constructor | done]. }
  destruct (next_target n (merge state partial)) as [[n'|]|e] eqn:Hnext.
  - pose proof (next_target_later _ _ _ Hnext) as Hlater.
    destruct (IH w1 (merge state partial) n') as (rest & -> & Hlen & Hsorted & Hhead);
      [lia|].
    eexists. split; [reflexivity|]. simpl.
    split_and!; [destruct n, n'; simpl in *; lia| |done].
    constructor; [done|].
    destruct (run_trace rest) as [|first others]; [constructor|].
    injection Hhead as ->. by constructor.
  - eexists. split; [reflexivity|]. simpl.
    split_and!; [destruct n; simpl; lia | repeat constructor | done].
  - eexists. split; [reflexivity|]. simpl.
    split_and!; [destruct n; simpl; lia | repeat constructor | done].
Qed.

End Forward.

(** X6: from any node, in any state and with any model, the engine ends:
    three node executions are enough fuel from the entry point, fewer from a
    later node.  The run starts at the node it is given and only goes to
    nodes added later, so no node runs twice. *)
Theorem run_from_any_state {World : Type}
    (invoke : World -> list Message -> World * Result Message)
    (w : World) (state : State) (n : Node) :
  exists r,
    (forall fuel, (3 - node_index n <= fuel)%nat -> run invoke fuel w state n = Some r)
    /\ (length (run_trace r) <= 3 - node_index n)%nat
    /\ Sorted lt (map node_index (run_trace r))
    /\ NoDup (run_trace r)
    /\ head (run_trace r) = Some n.
Proof.
  destruct (run_forward invoke (3 - node_index n) w state n (le_n _))
    as (r & Hrun & Hlen & Hsorted & Hhead).
  exists r. split_and!; [|done|done| |done].
  - intros fuel Hfuel. by apply (run_mono invoke (3 - node_index n)).
  - by apply sorted_index_NoDup.
Qed.

Lemma run_from_any_state_witness :
  exists r,
    run scripted 1 [] (state_at 3) display_results = Some r
    /\ run_result r = Raise KeyError
    /\ run_trace r = [display_results].
Proof.
  destruct (run_from_any_state scripted [] (state_at 3) display_results)
    as (r & Hrun & _).
  exists r. assert (3 - node_index display_results <= 1)%nat as Hfuel by (simpl; lia).
  pose proof (Hrun 1%nat Hfuel) as H. split; [exact H|].
  simpl in H. injection H as <-. by split.
Defined.

(** ** The state a run returns *)

(** X7: a run from the initial state returns a state only after all three
    nodes ran, in order, and that state is consistent: its destinations are
    the first ten non-blank lines of the one response in its messages, the
    keys of its attractions are exactly its destinations, and its step is 0.
    A response of blank lines gives no destination and an empty mapping. *)
Theorem run_final_state {World : Type}
    (invoke : World -> list Message -> World * Result Message)
    (w : World) (fuel : nat) (r : Run World) (final : State) :
  app_stream invoke fuel w initial_state = Some r ->
  run_result r = Ok final ->
  exists w1 response s items results,
    invoke w [GET_DESTINATIONS_PROMPT] = (w1, Ok response)
    /\ content response = ContentStr s
    /\ items = take 10 (map strip (nonblank_lines s))
    /\ final = {| messages := Some [response]; destinations := Some items;
                  attractions := Some results; step := Some 0 |}
    /\ dom results = list_to_set items
    /\ (nonblank_lines s = [] -> items = [] /\ results = ∅)
    /\ run_trace r = [get_destinations; get_attractions; display_results]
    /\ run_world r = world_after invoke w1 items.
Proof.
  intros Hrun Hfinal.
  assert (app_stream invoke (S (S (S fuel))) w initial_state = Some r) as Hrun3.
  { unfold app_stream in *. apply (run_mono invoke fuel); [done|lia]. }
  destruct (invoke w [GET_DESTINATIONS_PROMPT]) as [w1 r1] eqn:Hcall.
  destruct r1 as [response|e]; [destruct (content response) as [s|] eqn:Hcontent|].
  - rewrite (run_complete invoke _ w w1 response s Hcall Hcontent) in Hrun3.
    injection Hrun3 as <-. simpl in Hfinal. injection Hfinal as <-.
    rewrite stripped_lines_strip.
    eexists w1, response, s, _, _. split_and!; [done..| | |done|done].
    + by rewrite attractions_loop_dom, dom_empty_L, (left_id_L ∅ (∪)).
    + by intros ->.
  - rewrite (run_aborted invoke _ w w1 (Ok response) Hcall Hcontent) in Hrun3.
    injection Hrun3 as <-. done.
  - rewrite (run_aborted invoke _ w w1 (Raise e) Hcall I) in Hrun3.
    injection Hrun3 as <-. done.
Qed.

Lemma run_final_state_witness :
  exists r final results,
    app_stream scripted 3 two_destinations initial_state = Some r
    /\ run_result r = Ok final
    /\ destinations final = Some ["Japan-Tokyo"; "France-Paris"]
    /\ attractions final = Some results
    /\ dom results = list_to_set ["Japan-Tokyo"; "France-Paris"].
Proof.
  pose proof (run_complete scripted 0 two_destinations _ _ _ eq_refl eq_refl) as Hrun.
  destruct (run_final_state scripted two_destinations 3 _ _ Hrun eq_refl)
    as (w1 & response & s & items & results & Hcall & Hcontent & Hitems & Hfinal
        & Hdom & _).
  injection Hcall as <- <-. injection Hcontent as <-.
  eexists _, _, results. split; [exact Hrun|]. split; [reflexivity|].
  split; [reflexivity|]. split.
  - apply (f_equal attractions) in Hfinal. exact Hfinal.
  - rewrite Hdom. by rewrite Hitems.
Defined.

(** ** The heading of a destination in the report *)

Lemma append_String a s t : String a s +:+ t = String a (s +:+ t).
Proof. reflexivity. Qed.

Lemma count_contains sep s : count sep s = 0%nat <-> contains sep s = false.
Proof.
  induction s as [|a r IH]; [done|]. simpl.
  destruct (Ascii.eqb a sep); [done|]. by rewrite IH.
Qed.

Lemma split_length sep s : length (split sep s) = S (count sep s).
Proof.
  induction s as [|a r IH]; [done|]. simpl.
  destruct (Ascii.eqb a sep); simpl; [by rewrite IH|].
  destruct (split_cons sep r) as (h & t & Hs). rewrite Hs in *. by simpl in *.
Qed.

(** Without separator there is one field, the string itself. *)
Lemma split_whole sep s : contains sep s = false -> split sep s = [s].
Proof.
  induction s as [|a r IH]; [done|]. simpl.
  destruct (Ascii.eqb a sep); [done|]. simpl. by intros ->%IH.
Qed.

Lemma split_first sep before after :
  contains sep before = false ->
  split sep (before +:+ String sep after) = before :: split sep after
  /\ count sep (before +:+ String sep after) = S (count sep after).
Proof.
  induction before as [|a r IH].
  - intros _. change (EmptyString +:+ String sep after) with (String sep after).
    simpl. by rewrite Ascii.eqb_refl.
  - rewrite append_String. simpl. destruct (Ascii.eqb a sep) eqn:Ea; [done|]. simpl.
    intros [Hs Hc]%IH. by rewrite Hs, Hc.
Qed.

Lemma report_header_two destination country city :
  split "-" destination = [country; city] ->
  report_header destination = newline +:+ "  " +:+ city +:+ ", " +:+ country +:+ ":".
Proof. unfold report_header. by intros ->. Qed.

Lemma report_header_whole destination :
  length (split "-" destination) <> 2%nat ->
  report_header destination = newline +:+ "  " +:+ destination +:+ ":".
Proof.
  unfold report_header.
  by destruct (split "-" destination) as [|x [|y [|z t]]].
Qed.

(** X8: the report and the prompt read a destination alike exactly when it
    holds one hyphen: the heading then names the city and the country that
    the attractions step split off.  Without hyphen, and with two or more,
    the heading prints the destination whole, although with two or more the
    attractions were asked for the part after the first hyphen. *)
Theorem report_header_agrees (destination : string) :
  (count "-" destination = 1%nat ->
   exists country city,
     parse_destination destination = Ok (country, city)
     /\ report_header destination
        = newline +:+ "  " +:+ city +:+ ", " +:+ country +:+ ":")
  /\ (count "-" destination <> 1%nat ->
      report_header destination = newline +:+ "  " +:+ destination +:+ ":")
  /\ ((2 <= count "-" destination)%nat ->
      exists country city,
        parse_destination destination = Ok (country, city)
        /\ locale destination = city
        /\ contains "-" city = true).
Proof.
  split_and!.
  - intros Hcount.
    destruct (parse_destination_separator destination) as (country & city & Hp & Hd & Hc).
    { destruct (contains "-" destination) eqn:E; [done|].
      apply count_contains in E. lia. }
    exists country, city. split; [done|]. apply report_header_two.
    destruct (split_first "-" country city Hc) as [Hs Hn].
    change (country +:+ "-" +:+ city) with (country +:+ String "-" city) in Hd.
    rewrite <- Hd in Hs, Hn. rewrite Hs. f_equal. apply split_whole, count_contains. lia.
  - intros Hcount. apply report_header_whole. rewrite split_length. lia.
  - intros Hcount.
    destruct (parse_destination_separator destination) as (country & city & Hp & Hd & Hc).
    { destruct (contains "-" destination) eqn:E; [done|].
      apply count_contains in E. lia. }
    exists country, city. split_and!; [done|unfold locale; by rewrite Hp|].
    destruct (split_first "-" country city Hc) as [_ Hn].
    change (country +:+ "-" +:+ city) with (country +:+ String "-" city) in Hd.
    rewrite <- Hd in Hn. destruct (contains "-" city) eqn:E; [done|].
    apply count_contains in E. lia.
Qed.

Lemma report_header_agrees_witness :
  report_header "Japan-Tokyo" = newline +:+ "  Tokyo, Japan:"
  /\ report_header "Tokyo" = newline +:+ "  Tokyo:"
  /\ report_header "France-Aix-en-Provence" = newline +:+ "  France-Aix-en-Provence:"
  /\ locale "France-Aix-en-Provence" = "Aix-en-Provence".
Proof.
  destruct (report_header_agrees "Japan-Tokyo") as (Hone & _).
  destruct (Hone eq_refl) as (country & city & [= <- <-] & Hheader).
  destruct (report_header_agrees "Tokyo") as (_ & Hnone & _).
  destruct (report_header_agrees "France-Aix-en-Provence") as (_ & Hmany & Hcity).
  destruct Hcity as (country & city & [= <- <-] & Hlocale & _); [simpl; lia|].
  split_and!.
  - exact Hheader.
  - by apply Hnone.
  - by apply Hmany.
  - exact Hlocale.
Defined.

(** ** The order of the attractions *)

Lemma first_occurrences_elem l y : y ∈ first_occurrences l <-> y ∈ l.
Proof.
  induction l as [|x rest IH]; [done|]. simpl.
  rewrite !elem_of_cons, list_elem_of_filter, IH.
  destruct (decide (y = x)); tauto.
Qed.

Lemma first_occurrences_NoDup l : NoDup (first_occurrences l).
Proof.
  induction l as [|x rest IH]; [constructor|]. simpl. constructor.
  - rewrite list_elem_of_filter. tauto.
  - by apply NoDup_filter.
Qed.

Lemma dict_set_keys k v d :
  (dict_set k v d).*1 = if decide (k ∈ d.*1) then d.*1 else d.*1 ++ [k].
Proof.
  induction d as [|[k' v'] rest IH].
  - destruct (decide (k ∈ ([] : list (string * list string)).*1)) as [Hin|_]; [|done].
    by apply elem_of_nil in Hin.
  - change (((k', v') :: rest).*1) with (k' :: rest.*1).
    change (dict_set k v ((k', v') :: rest))
      with (if decide (k' = k) then (k', v) :: rest else (k', v') :: dict_set k v rest).
    destruct (decide (k' = k)) as [->|Hne].
    + destruct (decide (k ∈ k :: rest.*1)) as [_|Hout]; [done|].
      destruct Hout. apply list_elem_of_here.
    + change (((k', v') :: dict_set k v rest).*1) with (k' :: (dict_set k v rest).*1).
      rewrite IH.
      destruct (decide (k ∈ rest.*1)) as [Hin|Hout];
        destruct (decide (k ∈ k' :: rest.*1)) as [Hin'|Hout']; try done.
      * destruct Hout'. by apply list_elem_of_further.
      * apply elem_of_cons in Hin' as [->|Hin']; done.
Qed.

Lemma dict_set_to_map k v d :
  list_to_map (dict_set k v d) =@{gmap string (list string)} <[k := v]> (list_to_map d).
Proof.
  induction d as [|[k' v'] rest IH]; [done|]. simpl.
  destruct (decide (k' = k)) as [->|Hne]; simpl.
  - by rewrite insert_insert_eq.
  - by rewrite IH, insert_insert_ne.
Qed.

(** A list of items with distinct keys is its keys, each with the value
    the mapping has for it. *)
Lemma items_of_map (d : list (string * list string)) :
  NoDup d.*1 ->
  d = map (fun k => (k, default [] ((list_to_map d : gmap string (list string)) !! k))) d.*1.
Proof.
  induction d as [|[k v] rest IH]; [done|]. simpl.
  intros [Hk Hrest]%NoDup_cons. rewrite lookup_insert_eq. simpl. f_equal.
  rewrite (IH Hrest) at 1. apply List.map_ext_in.
  intros k' Hk'%list_elem_of_In. rewrite lookup_insert_ne; [done|].
  by intros ->.
Qed.

Lemma filter_not_in_nil (l : list string) :
  filter (fun k => k ∉ @nil string) l = l.
Proof.
  induction l as [|x rest IH]; [done|].
  rewrite filter_cons_True by apply not_elem_of_nil. by rewrite IH.
Qed.

Section ItemsFacts.

Context {World : Type}.
Variable invoke : World -> list Message -> World * Result Message.

Lemma items_loop_cons w d destination rest :
  items_loop invoke w d (destination :: rest)
  = items_loop invoke (fst (try_destination invoke w destination))
      (dict_set destination (entry_of (snd (try_destination invoke w destination))) d)
      rest.
Proof. simpl. by destruct (try_destination invoke w destination). Qed.

(** The loop on the ordered dictionary and the loop on the mapping go
    through the same worlds and store the same. *)
Lemma items_loop_to_map w d todo :
  fst (items_loop invoke w d todo) = fst (attractions_loop invoke w (list_to_map d) todo)
  /\ list_to_map (snd (items_loop invoke w d todo))
     = snd (attractions_loop invoke w (list_to_map d) todo).
Proof.
  revert w d. induction todo as [|x rest IH]; intros w d; [done|].
  rewrite items_loop_cons, attractions_loop_cons, <- dict_set_to_map. apply IH.
Qed.

Lemma items_loop_keys w d todo :
  (snd (items_loop invoke w d todo)).*1
  = d.*1 ++ filter (fun k => k ∉ d.*1) (first_occurrences todo).
Proof.
  revert w d. induction todo as [|x rest IH]; intros w d.
  - simpl. by rewrite app_nil_r.
  - rewrite items_loop_cons, IH, dict_set_keys. simpl.
    destruct (decide (x ∈ d.*1)) as [Hin|Hout].
    + rewrite filter_cons_False by (intros Hx; apply Hx, Hin). f_equal.
      rewrite list_filter_filter. apply list_filter_iff.
      intros y. split; [|by intros [Hy _]]. intros Hy. split; [done|]. by intros ->.
    + rewrite filter_cons_True by done. rewrite <- app_assoc. simpl. do 2 f_equal.
      rewrite list_filter_filter. apply list_filter_iff.
      intros y. cbv beta. rewrite elem_of_app, list_elem_of_singleton. tauto.
Qed.

End ItemsFacts.

Lemma items_loop_in_order {World : Type}
    (invoke : World -> list Message -> World * Result Message)
    (w : World) (todo : list string) :
  snd (items_loop invoke w [] todo)
  = map (fun k => (k, default [] (snd (attractions_loop invoke w ∅ todo) !! k)))
        (first_occurrences todo)
  /\ list_to_map (snd (items_loop invoke w [] todo))
     = snd (attractions_loop invoke w ∅ todo)
  /\ fst (items_loop invoke w [] todo) = world_after invoke w todo.
Proof.
  destruct (items_loop_to_map invoke w [] todo) as [Hworld Hmap].
  change (list_to_map []) with (∅ : gmap string (list string)) in Hworld, Hmap.
  pose proof (items_loop_keys invoke w [] todo) as Hkeys.
  change ((([] : list (string * list string)).*1)) with (@nil string) in Hkeys.
  rewrite filter_not_in_nil in Hkeys. simpl in Hkeys.
  split_and!; [|done..].
  rewrite <- Hmap, <- Hkeys. apply items_of_map. rewrite Hkeys.
  apply first_occurrences_NoDup.
Qed.

(** X9: the dictionary the attractions step builds lists every distinct
    destination once, where it first occurs in the list, with the entry the
    mapping has for it; the loop on the ordered dictionary goes through the
    same worlds as the loop on the mapping. *)
Theorem items_in_order {World : Type}
    (invoke : World -> list Message -> World * Result Message)
    (w : World) (todo : list string) :
  snd (items_loop invoke w [] todo)
  = map (fun k => (k, default [] (snd (attractions_loop invoke w ∅ todo) !! k)))
        (first_occurrences todo)
  /\ list_to_map (snd (items_loop invoke w [] todo))
     = snd (attractions_loop invoke w ∅ todo)
  /\ fst (items_loop invoke w [] todo) = world_after invoke w todo
  /\ NoDup (first_occurrences todo)
  /\ (forall k, k ∈ first_occurrences todo <-> k ∈ todo).
Proof.
  destruct (items_loop_in_order invoke w todo) as (Hitems & Hmap & Hworld).
  split_and!; [done..| |].
  - apply first_occurrences_NoDup.
  - apply first_occurrences_elem.
Qed.

Lemma items_in_order_witness :
  snd (items_loop scripted second_call_raises []
         ["Japan-Tokyo"; "France-Paris"; "Japan-Tokyo"])
  = [("Japan-Tokyo", ["Colosseum"; "Pantheon"]); ("France-Paris", ERROR_ENTRY)].
Proof.
  rewrite (proj1 (items_in_order scripted second_call_raises
                    ["Japan-Tokyo"; "France-Paris"; "Japan-Tokyo"])).
  reflexivity.
Defined.

(** ** The report of a run *)

(** X10: no item is left out of the report.  Every item of the list has
    its section there, the heading followed by the lines of its entry numbered
    from 1; for an item whose entry is the marker, that is the one line
    ["    1. Error retrieving attractions"]. *)
Theorem report_has_section {World : Type}
    (invoke : World -> list Message -> World * Result Message)
    (w : World) (items : list string) (k : string) :
  k ∈ items ->
  exists entry before after,
    snd (attractions_loop invoke w ∅ items) !! k = Some entry
    /\ report_of invoke w items
       = before ++ (report_header k :: numbered "    " entry) ++ after
    /\ (entry = ERROR_ENTRY ->
        numbered "    " entry = ["    1. Error retrieving attractions"]).
Proof.
  intros Hk.
  destruct (items_loop_in_order invoke w items) as (Hitems & _ & _).
  assert (is_Some (snd (attractions_loop invoke w ∅ items) !! k)) as [entry Hentry].
  { apply elem_of_dom.
    rewrite attractions_loop_dom, dom_empty_L, (left_id_L ∅ (∪)).
    by apply elem_of_list_to_set. }
  apply first_occurrences_elem, list_elem_of_split in Hk as (l1 & l2 & Hsplit).
  unfold report_of, display_output.
  rewrite Hitems, Hsplit, List.map_app, List.flat_map_app, List.map_cons, Hentry.
  match goal with
  | |- context [flat_map report_section (?x :: ?l)] =>
      change (flat_map report_section (x :: l))
        with ((report_header k :: numbered "    " entry) ++ flat_map report_section l)
  end.
  set (top := [_; _; _]).
  set (mid := [newline +:+ "FAMOUS ATTRACTIONS FOR EACH CITY:"]).
  set (foot := [_; _; _]).
  set (s1 := flat_map report_section (map _ l1)).
  set (s2 := flat_map report_section (map _ l2)).
  exists entry, (top ++ numbered "  " items ++ mid ++ s1), (s2 ++ foot).
  split; [reflexivity|]. split.
  - rewrite <- !app_assoc. reflexivity.
  - intros ->. vm_compute. reflexivity.
Qed.

Lemma report_has_section_witness :
  exists before after,
    report_of scripted second_call_raises three_items
    = before
      ++ (report_header "France-Paris" :: ["    1. Error retrieving attractions"])
      ++ after.
Proof.
  assert ("France-Paris" ∈ three_items) as Hk.
  { apply list_elem_of_lookup. by exists 1%nat. }
  destruct (report_has_section scripted second_call_raises three_items
              "France-Paris" Hk)
    as (entry & before & after & Hentry & Hreport & Hmarker).
  assert (snd (attractions_loop scripted second_call_raises ∅ three_items)
            !! "France-Paris" = Some ERROR_ENTRY) as Hfailed by reflexivity.
  rewrite Hfailed in Hentry. injection Hentry as <-.
  exists before, after. rewrite Hreport. by rewrite Hmarker.
Defined.

(** ** The chat script *)

Ltac lower_char_cases c :=
  split;
  [ intros H; destruct c as [[] [] [] [] [] [] [] []]; vm_compute in H;
    try discriminate H; ((by left) || (by right))
  | intros [->| ->]; reflexivity ].

Lemma lower_char_e c : lower_char c = "e"%char <-> c = "e"%char \/ c = "E"%char.
Proof. lower_char_cases c. Qed.

Lemma lower_char_x c : lower_char c = "x"%char <-> c = "x"%char \/ c = "X"%char.
Proof. lower_char_cases c. Qed.

Lemma lower_char_i c : lower_char c = "i"%char <-> c = "i"%char \/ c = "I"%char.
Proof. lower_char_cases c. Qed.

Lemma lower_char_t c : lower_char c = "t"%char <-> c = "t"%char \/ c = "T"%char.
Proof. lower_char_cases c. Qed.

(** X11: the chat ends on the four letters of [exit] in any mix of capital
    and small letters, and on no other line: a line with a space around the
    word, or with more or fewer characters, is sent to the model. *)
Theorem exit_word (user_input : string) :
  String.eqb (lower user_input) "exit" = true <->
  exists c1 c2 c3 c4,
    user_input = String c1 (String c2 (String c3 (String c4 EmptyString)))
    /\ (c1 = "e" \/ c1 = "E")%char
    /\ (c2 = "x" \/ c2 = "X")%char
    /\ (c3 = "i" \/ c3 = "I")%char
    /\ (c4 = "t" \/ c4 = "T")%char.
Proof.
  rewrite String.eqb_eq. split.
  - destruct user_input as [|c1 [|c2 [|c3 [|c4 [|c5 r]]]]]; simpl; try done.
    intros [= H1 H2 H3 H4]. exists c1, c2, c3, c4.
    rewrite <- lower_char_e, <- lower_char_x, <- lower_char_i, <- lower_char_t.
    done.
  - intros (c1 & c2 & c3 & c4 & -> & H1 & H2 & H3 & H4). simpl.
    apply lower_char_e in H1. apply lower_char_x in H2.
    apply lower_char_i in H3. apply lower_char_t in H4.
    by rewrite H1, H2, H3, H4.
Qed.

Lemma exit_word_witness :
  String.eqb (lower "ExIt") "exit" = true
  /\ ~ (exists c1 c2 c3 c4,
           " exit" = String c1 (String c2 (String c3 (String c4 EmptyString)))
           /\ (c1 = "e" \/ c1 = "E")%char
           /\ (c2 = "x" \/ c2 = "X")%char
           /\ (c3 = "i" \/ c3 = "I")%char
           /\ (c4 = "t" \/ c4 = "T")%char).
Proof.
  split.
  - apply (proj2 (exit_word "ExIt")). exists "E"%char, "x"%char, "I"%char, "t"%char.
    split_and!; [reflexivity | by right | by left | by right | by left].
  - intros H. apply (proj2 (exit_word " exit")) in H. discriminate H.
Defined.

Section ChatFacts.

Context {World : Type}.
Variable invoke : World -> list Message -> World * Result Message.

(** One turn, read off the answer of the model to the line alone. *)
Lemma chat_stream_logged w log user_input :
  chat_stream (logged invoke) (w, log)
    {| messages := Some [HumanMessage user_input]; destinations := None;
       attractions := None; step := None |}
  = let '(w', r) := invoke w [HumanMessage user_input] in
    ((w', log ++ [[HumanMessage user_input]]),
     match r with
     | Raise e => Raise e
     | Ok result =>
         Ok {| messages := Some [result]; destinations := None;
               attractions := None; step := None |}
     end).
Proof.
  unfold chat_stream, chatbot, logged. simpl.
  by destruct (invoke w _) as [w' [result|e]].
Qed.

Lemma chat_loop_logged turns :
  forall w log printed word rest,
    Forall (fun u => String.eqb (lower u) "exit" = false) turns ->
    String.eqb (lower word) "exit" = true ->
    exists n new,
      (n <= length turns)%nat
      /\ snd (fst (fst (chat_loop (logged invoke) (w, log) (turns ++ word :: rest) printed)))
         = log ++ chat_prompts (take n turns)
      /\ snd (fst (chat_loop (logged invoke) (w, log) (turns ++ word :: rest) printed))
         = printed ++ new
      /\ ((snd (chat_loop (logged invoke) (w, log) (turns ++ word :: rest) printed) = Exited
           /\ n = length turns /\ length new = n)
          \/ (exists e,
                 snd (chat_loop (logged invoke) (w, log) (turns ++ word :: rest) printed)
                 = Stopped (NodeRaised e)
                 /\ n = S (length new))).
Proof.
  induction turns as [|u turns IH]; intros w log printed word rest Hturns Hword.
  - exists 0%nat, []. simpl. rewrite Hword. simpl.
    rewrite !app_nil_r. split_and!; [lia|done|done|]. by left.
  - apply Forall_cons in Hturns as [Hu Hturns].
    change ((u :: turns) ++ word :: rest) with (u :: (turns ++ word :: rest)).
    cbn [chat_loop]. rewrite Hu, chat_stream_logged.
    destruct (invoke w [HumanMessage u]) as [w' [result|e]].
    + change (last_content _) with (@inr ChatExn Content (content result)).
      cbv beta iota.
      destruct (IH w' (log ++ [[HumanMessage u]]) (printed ++ [content result])
                  word rest Hturns Hword)
        as (n & new & Hn & Hlog & Hprinted & Hend).
      exists (S n), (content result :: new). rewrite Hlog, Hprinted.
      split_and!.
      * simpl. lia.
      * unfold chat_prompts. simpl. by rewrite <- app_assoc.
      * by rewrite <- app_assoc.
      * destruct Hend as [(-> & -> & Hlen)|(e & -> & ->)].
        -- left. simpl. by rewrite Hlen.
        -- right. by exists e.
    + exists 1%nat, []. simpl. rewrite app_nil_r.
      split_and!; [lia|done|done|]. right. by exists e.
Qed.

End ChatFacts.

(** X12: the chat has no memory.  Over the lines typed before the first
    exit word, the model is called once per line, in order, each time with
    the one message of that line and nothing of the earlier turns; one answer
    is printed per call.  The chat ends at the exit word, without reading the
    lines after it, unless a call raised first, which ends it at that line
    with nothing printed for it. *)
Theorem chat_turns {World : Type}
    (invoke : World -> list Message -> World * Result Message)
    (w : World) (turns : list string) (word : string) (rest : list string) :
  Forall (fun u => String.eqb (lower u) "exit" = false) turns ->
  String.eqb (lower word) "exit" = true ->
  exists n,
    (n <= length turns)%nat
    /\ snd (fst (fst (chat_loop (logged invoke) (w, []) (turns ++ word :: rest) [])))
       = chat_prompts (take n turns)
    /\ ((snd (chat_loop (logged invoke) (w, []) (turns ++ word :: rest) []) = Exited
         /\ n = length turns
         /\ length (snd (fst (chat_loop (logged invoke) (w, [])
                                 (turns ++ word :: rest) []))) = n)
        \/ (exists e,
               snd (chat_loop (logged invoke) (w, []) (turns ++ word :: rest) [])
               = Stopped (NodeRaised e)
               /\ n = S (length (snd (fst (chat_loop (logged invoke) (w, [])
                                             (turns ++ word :: rest) [])))))).
Proof.
  intros Hturns Hword.
  destruct (chat_loop_logged invoke turns w [] [] word rest Hturns Hword)
    as (n & new & Hn & Hlog & Hprinted & Hend).
  exists n. rewrite Hlog, Hprinted. simpl. split_and!; [done..|].
  destruct Hend as [(-> & -> & Hlen)|(e & -> & ->)].
  - left. by rewrite Hlen.
  - right. by exists e.
Qed.

Lemma chat_turns_witness :
  exists n,
    (n <= 2)%nat
    /\ snd (fst (fst (chat_loop (logged scripted) (two_destinations, [])
                        (["Hello"; "exit now"] ++ "EXIT" :: ["never read"]) [])))
       = chat_prompts (take n ["Hello"; "exit now"]).
Proof.
  destruct (chat_turns scripted two_destinations ["Hello"; "exit now"] "EXIT"
              ["never read"]) as (n & Hn & Hlog & _).
  - repeat constructor.
  - reflexivity.
  - exists n. by split.
Defined.

(** ** What cleaning removes *)

Lemma lstrip_chars_split chars s :
  exists removed,
    s = removed +:+ lstrip_chars chars s
    /\ (forall c, contains c removed = true -> contains c chars = true).
Proof.
  induction s as [|a r (removed & Hr & Hall)]; [by exists EmptyString|]. simpl.
  destruct (contains a chars) eqn:Ha.
  - exists (String a removed). split; [by rewrite append_String, <- Hr|].
    intros c. simpl. destruct (Ascii.eqb a c) eqn:E; [|by apply Hall].
    by apply Ascii.eqb_eq in E as <-.
  - by exists EmptyString.
Qed.

Lemma lstrip_chars_prefix chars removed s :
  (forall c, contains c removed = true -> contains c chars = true) ->
  lstrip_chars chars (removed +:+ s) = lstrip_chars chars s.
Proof.
  induction removed as [|a r IH]; [done|]. intros Hall.
  rewrite append_String. simpl. rewrite (Hall a) by (simpl; by rewrite Ascii.eqb_refl).
  apply IH. intros c Hc. apply Hall. simpl. by rewrite Hc, orb_true_r.
Qed.

Lemma lstrip_chars_idemp chars s :
  lstrip_chars chars (lstrip_chars chars s) = lstrip_chars chars s.
Proof.
  induction s as [|a r IH]; [done|]. simpl.
  destruct (contains a chars) eqn:Ha; [done|]. simpl. by rewrite Ha.
Qed.

(** X13: cleaning an item takes off the longest start made of digits, dots
    and spaces, and nothing else: the item is what was removed followed by the
    result, the result starts with none of these characters, and cleaning
    again changes nothing.  Digits that open the name itself go with the
    enumeration marker. *)
Theorem clean_item_decomposition (item : string) :
  (exists removed,
      item = removed +:+ clean_item item
      /\ (forall c, contains c removed = true -> contains c "0123456789. " = true))
  /\ (forall c rest,
        clean_item item = String c rest -> contains c "0123456789. " = false)
  /\ clean_item (clean_item item) = clean_item item
  /\ (forall marker,
        (forall c, contains c marker = true -> contains c "0123456789. " = true) ->
        clean_item (marker +:+ item) = clean_item item).
Proof.
  unfold clean_item. split_and!.
  - apply lstrip_chars_split.
  - intros c rest H. by apply (lstrip_chars_head _ _ _ _ H).
  - apply lstrip_chars_idemp.
  - intros marker Hmarker. by apply lstrip_chars_prefix.
Qed.

Lemma clean_item_decomposition_witness :
  clean_item ("3. 1000 " +:+ "Islands") = clean_item "Islands".
Proof.
  apply (proj2 (proj2 (proj2 (clean_item_decomposition "Islands"))) "3. 1000 ").
  intros c Hc.
  destruct c as [[] [] [] [] [] [] [] []]; vm_compute in Hc; try discriminate Hc;
    reflexivity.
Defined.

(** ** What a run takes from its input *)

Section FromEntry.

Context {World : Type}.
Variable invoke : World -> list Message -> World * Result Message.

(** The run from the entry point in any state, when the first call is
    answered with a string: of the state, only the messages are left. *)
Lemma run_from_entry fuel w state w1 response s :
  invoke w [GET_DESTINATIONS_PROMPT] = (w1, Ok response) ->
  content response = ContentStr s ->
  run invoke (S (S (S fuel))) w state get_destinations
  = Some {| run_world := world_after invoke w1 (take 10 (stripped_lines (strip s)));
            run_result :=
              Ok {| messages :=
                      Some ((default [] (messages state) ++ [response]) ++ []);
                    destinations := Some (take 10 (stripped_lines (strip s)));
                    attractions :=
                      Some (snd (attractions_loop invoke w1 ∅
                                   (take 10 (stripped_lines (strip s)))));
                    step := Some 0 |};
            run_trace := [get_destinations; get_attractions; display_results] |}
  /\ run invoke 1 w state get_destinations = None
  /\ run invoke 2 w state get_destinations = None.
Proof.
  intros Hcall Hcontent.
  set (items := take 10 (stripped_lines (strip s))).
  set (partial1 := {| destinations := Some items; step := Some 2;
                      messages := Some [response]; attractions := None |}).
  assert (node_function invoke get_destinations w state = (w1, Ok partial1)) as H1.
  { unfold node_function, get_destinations_node, content_strip.
    by rewrite Hcall, Hcontent. }
  set (state1 := merge state partial1).
  pose proof (get_attractions_node_eq invoke w1 state1 items eq_refl) as H2.
  assert (forall f,
             run invoke (S f) w state get_destinations
             = match run invoke f w1 state1 get_attractions with
               | Some rest =>
                   Some {| run_world := run_world rest; run_result := run_result rest;
                           run_trace := get_destinations :: run_trace rest |}
               | None => None
               end) as Hfirst.
  { intros f. by rewrite (run_Ok _ _ _ _ _ _ _ H1). }
  assert (forall f,
             run invoke (S f) w1 state1 get_attractions
             = match run invoke f (world_after invoke w1 items)
                       (merge state1
                          {| attractions := Some (snd (attractions_loop invoke w1 ∅ items));
                             step := Some 3; messages := Some [];
                             destinations := None |}) display_results with
               | Some rest =>
                   Some {| run_world := run_world rest; run_result := run_result rest;
                           run_trace := get_attractions :: run_trace rest |}
               | None => None
               end) as Hsecond.
  { intros f. by rewrite (run_Ok _ _ _ _ get_attractions _ _ H2). }
  split_and!.
  - rewrite Hfirst, Hsecond.
    match goal with |- context [merge state1 ?p] => set (partial2 := p) end.
    assert (node_function invoke display_results (world_after invoke w1 items)
              (merge state1 partial2)
            = (world_after invoke w1 items, Ok (state_at 0))) as H3 by reflexivity.
    rewrite (run_Ok _ _ _ _ display_results _ _ H3). reflexivity.
  - by rewrite Hfirst.
  - by rewrite Hfirst, Hsecond.
Qed.

(** The run from the entry point in any state, when the first call raises
    or is answered with no string. *)
Lemma run_from_entry_aborted fuel w state w1 r :
  invoke w [GET_DESTINATIONS_PROMPT] = (w1, r) ->
  match r with
  | Raise _ => True
  | Ok response => content response = ContentBlocks
  end ->
  run invoke (S fuel) w state get_destinations
  = Some {| run_world := w1;
            run_result :=
              Raise match r with Raise e => e | Ok _ => AttributeError end;
            run_trace := [get_destinations] |}.
Proof.
  intros Hcall Hr. apply run_Raise.
  unfold node_function, get_destinations_node, content_strip. rewrite Hcall.
  destruct r as [response|e]; [|done]. by rewrite Hr.
Qed.

End FromEntry.

(** X14: of the dictionary given to [app.stream], a run uses the messages
    and nothing else.  Two inputs with the same messages give the same run,
    whatever their step, destinations and attractions are: the run starts at
    the entry point without looking at the step, and the first two nodes
    overwrite the other fields before anything reads them. *)
Theorem run_ignores_input {World : Type}
    (invoke : World -> list Message -> World * Result Message)
    (w : World) (fuel : nat) (input input' : State) :
  messages input = messages input' ->
  app_stream invoke fuel w input = app_stream invoke fuel w input'.
Proof.
  intros Hmessages. unfold app_stream, entry_point.
  assert (messages (merge empty_dict input) = messages (merge empty_dict input'))
    as Hmerged.
  { unfold merge. simpl. by rewrite Hmessages. }
  destruct fuel as [|fuel]; [done|].
  destruct (invoke w [GET_DESTINATIONS_PROMPT]) as [w1 r] eqn:Hcall.
  destruct r as [response|e]; [destruct (content response) as [s|] eqn:Hcontent|].
  - destruct (run_from_entry invoke 0 w (merge empty_dict input) w1 response s
                Hcall Hcontent) as (_ & Hone & Htwo).
    destruct (run_from_entry invoke 0 w (merge empty_dict input') w1 response s
                Hcall Hcontent) as (_ & Hone' & Htwo').
    destruct fuel as [|[|fuel]].
    + by rewrite Hone, Hone'.
    + by rewrite Htwo, Htwo'.
    + rewrite (proj1 (run_from_entry invoke fuel w (merge empty_dict input) w1
                        response s Hcall Hcontent)).
      rewrite (proj1 (run_from_entry invoke fuel w (merge empty_dict input') w1
                        response s Hcall Hcontent)).
      by rewrite Hmerged.
  - by rewrite !(run_from_entry_aborted invoke fuel w _ w1 (Ok response) Hcall Hcontent).
  - by rewrite !(run_from_entry_aborted invoke fuel w _ w1 (Raise e) Hcall I).
Qed.

Lemma run_ignores_input_witness :
  app_stream scripted 3 two_destinations initial_state
  = app_stream scripted 3 two_destinations
      {| messages := Some []; destinations := Some ["Peru-Cusco"];
         attractions := None; step := Some 7 |}.
Proof.
  apply (run_ignores_input scripted two_destinations 3 initial_state). reflexivity.
Defined.
